(** * live-vision client: the [App] component, embedded and verified

    The repository holds two versions of one React component:
    - [src/client/src/App.tsx]  (module [ClientApp]): frames only;
    - [src/unnamed/part_000]    (module [FaceCountApp]): frames and a
      textual face count kept in a [useState] cell.

    Both are embedded over one model of the browser objects they touch
    (WebSocket, Blob, object URLs, Image, canvas, console) and of React's
    hook runtime (render, commit, effects with dependencies, unmount).
    Handlers are written in a small state-and-exception monad, statement
    by statement as in the source. *)

From Stdlib Require Import ZArith NArith.
From Stdlib Require Import String Ascii.
From stdpp Require Import base numbers option list strings gmap fin_maps.

Local Open Scope Z_scope.

(** ** JavaScript numbers

    Every number the component handles is the literal [0], a result of
    [parseInt], a canvas dimension or a [readyState] code: all are NaN,
    an infinity, or an integer-valued double.  [Finite true 0] is [-0].
    Structural equality on this type is [Object.is]. *)

Inductive JSNumber : Type :=
  | NaN
  | Infinity (neg : bool)
  | Finite (neg : bool) (mag : N).

#[global] Instance JSNumber_eq_dec : EqDecision JSNumber.
Proof. solve_decision. Defined.

Definition Object_is (x y : JSNumber) : bool := bool_decide (x = y).

(** The mathematical value of a number, when it has one. *)
Definition number_value (x : JSNumber) : option Z :=
  match x with
  | Finite false m => Some (Z.of_N m)
  | Finite true m => Some (- Z.of_N m)
  | _ => None
  end.


(** Rounding of a non-negative mathematical integer to the nearest double,
    ties to even (the ECMAScript operation written 𝔽).  Integers below
    2^53 are exact; from 2^1024 - 2^970 on the result is +Infinity. *)
Definition round_to_double (m : N) : option N :=
  if (m <? 2 ^ 53)%N then Some m
  else
    let k := (N.log2 m - 52)%N in
    let q := N.shiftr m k in
    let r := (m - N.shiftl q k)%N in
    let half := N.shiftl 1 (k - 1) in
    let q' := if (half <? r)%N then (q + 1)%N
              else if (r =? half)%N then (if N.odd q then q + 1 else q)%N
              else q in
    let v := N.shiftl q' k in
    if (v <? 2 ^ 1024)%N then Some v else None.

Definition to_number (neg : bool) (m : N) : JSNumber :=
  match round_to_double m with
  | Some v => Finite neg v
  | None => Infinity neg
  end.

(** ** JavaScript strings: sequences of UTF-16 code units *)

Definition JSString := list N.

Definition js (s : string) : JSString :=
  map (fun c => N_of_ascii c) (list_ascii_of_string s).

(** WhiteSpace and LineTerminator code units, as trimmed by [parseInt]. *)
Definition is_white_space (c : N) : bool :=
  ((9 <=? c) && (c <=? 13) || (c =? 32) || (c =? 160) || (c =? 5760)
   || (8192 <=? c) && (c <=? 8202) || (c =? 8232) || (c =? 8233)
   || (c =? 8239) || (c =? 8287) || (c =? 12288) || (c =? 65279))%N.

Fixpoint trim_start (s : JSString) : JSString :=
  match s with
  | c :: s' => if is_white_space c then trim_start s' else s
  | [] => []
  end.

Definition is_digit10 (c : N) : bool := ((48 <=? c) && (c <=? 57))%N.

(** The longest prefix of radix-10 digits (step 11-12 of [parseInt]). *)
Fixpoint digit_prefix (s : JSString) : JSString :=
  match s with
  | c :: s' => if is_digit10 c then c :: digit_prefix s' else []
  | [] => []
  end.

(** The integer value of a digit sequence in radix 10. *)
Definition math_int (ds : JSString) : N :=
  fold_left (fun acc c => (10 * acc + (c - 48))%N) ds 0%N.

(** [parseInt(string, 10)]: trim leading white space, take an optional
    sign, read the longest digit prefix; no digit gives NaN; a zero keeps
    its sign; otherwise the signed value is rounded to a double. *)
Definition parseInt10 (input : JSString) : JSNumber :=
  let s := trim_start input in
  let '(neg, s) :=
    match s with
    | c :: s' =>
        if (c =? 45)%N then (true, s')          (* "-" *)
        else if (c =? 43)%N then (false, s')    (* "+" *)
        else (false, s)
    | [] => (false, [])
    end in
  let z := digit_prefix s in
  match z with
  | [] => NaN
  | _ => to_number neg (math_int z)
  end.

(** ** Browser objects *)

(** [event.data] of a WebSocket message: a string for a text frame
    ([typeof event.data === 'string']), the received bytes for a binary
    frame. *)
Inductive Payload : Type :=
  | PText (s : JSString)
  | PBinary (bytes : list N).

Record Blob : Type := { blob_parts : list Payload; blob_type : string }.

(** Object URLs, sockets and images are named by allocation order. *)
Abbreviation URL := nat (only parsing).
Abbreviation ImgId := nat (only parsing).
Abbreviation SocketId := nat (only parsing).

Inductive ReadyState : Type := CONNECTING | OPEN | CLOSING | CLOSED.

Definition readyState_code (s : ReadyState) : JSNumber :=
  match s with
  | CONNECTING => Finite false 0
  | OPEN => Finite false 1
  | CLOSING => Finite false 2
  | CLOSED => Finite false 3
  end.

(** A socket and which of its four handler slots have been assigned. *)
Record WebSocket : Type := {
  readyState : ReadyState;
  onopen : bool;
  onmessage : bool;
  onclose : bool;
  onerror : bool }.

(** A decoded picture. *)
Record Bitmap : Type := {
  natural_width : Z;
  natural_height : Z;
  pixels : list N }.

(** One [drawImage] onto a surface: source picture and destination box. *)
Record DrawOp : Type := {
  d_image : Bitmap;
  d_x : Z; d_y : Z; d_w : Z; d_h : Z }.

(** The [<canvas>] element; [surface] lists what was painted, newest first. *)
Record Canvas : Type := {
  width : Z;
  height : Z;
  context2d : bool;
  surface : list DrawOp }.

(** An [Image] object.  [fetching] is the blob its [src] resolved to when
    it was assigned; [onload] holds the [url] captured by the closure
    assigned to [img.onload]; [settled] is set once the load has ended. *)
Record Image : Type := {
  src : option URL;
  fetching : option Blob;
  onload : option URL;
  bitmap : option Bitmap;
  settled : bool }.

(** What the component last rendered: the face-count line, if it has one. *)
Record View : Type := { count_line : option JSNumber }.

Inductive JSError : Type := TypeError (msg : string).

#[global] Instance JSError_eq_dec : EqDecision JSError.
Proof. solve_decision. Defined.

(** Calls that leave the component, in the order they are made (newest
    first in [log]). *)
Inductive Effect : Type :=
  | NewWebSocket (id : SocketId)
  | WsClose (id : SocketId)
  | ConsoleLog (msg : string)
  | ConsoleError (msg : string)
  | CreateObjectURL (u : URL)
  | RevokeObjectURL (u : URL)
  | DrawImage (img : ImgId) (dx dy dw dh : Z)
  | Uncaught (e : JSError).

#[global] Instance Effect_eq_dec : EqDecision Effect.
Proof. solve_decision. Defined.

Inductive Phase : Type := Fresh | Mounted | Unmounted.

#[global] Instance Phase_eq_dec : EqDecision Phase.
Proof. solve_decision. Defined.

(** The browser tab together with the one component instance. *)
Record World : Type := {
  sockets : list WebSocket;
  object_urls : gmap nat Blob;
  next_url : nat;
  images : list Image;
  videoRef : option Canvas;        (* videoRef.current *)
  faceCount : JSNumber;            (* the useState cell *)
  phase : Phase;
  needs_render : bool;             (* a state update is pending *)
  effect_ws : option SocketId;     (* [ws] of the effect last run *)
  screen : option View;
  log : list Effect }.

Definition initial_world : World := {|
  sockets := []; object_urls := ∅; next_url := 0%nat; images := [];
  videoRef := None; faceCount := Finite false 0; phase := Fresh;
  needs_render := false; effect_ws := None; screen := None; log := [] |}.

Definition with_sockets (x : list WebSocket) (w : World) : World :=
  {| sockets := x; object_urls := object_urls w; next_url := next_url w;
     images := images w; videoRef := videoRef w; faceCount := faceCount w;
     phase := phase w; needs_render := needs_render w;
     effect_ws := effect_ws w; screen := screen w; log := log w |}.

Definition with_object_urls (x : gmap nat Blob) (n : nat) (w : World) : World :=
  {| sockets := sockets w; object_urls := x; next_url := n;
     images := images w; videoRef := videoRef w; faceCount := faceCount w;
     phase := phase w; needs_render := needs_render w;
     effect_ws := effect_ws w; screen := screen w; log := log w |}.

Definition with_images (x : list Image) (w : World) : World :=
  {| sockets := sockets w; object_urls := object_urls w; next_url := next_url w;
     images := x; videoRef := videoRef w; faceCount := faceCount w;
     phase := phase w; needs_render := needs_render w;
     effect_ws := effect_ws w; screen := screen w; log := log w |}.

Definition with_videoRef (x : option Canvas) (w : World) : World :=
  {| sockets := sockets w; object_urls := object_urls w; next_url := next_url w;
     images := images w; videoRef := x; faceCount := faceCount w;
     phase := phase w; needs_render := needs_render w;
     effect_ws := effect_ws w; screen := screen w; log := log w |}.

Definition with_faceCount (x : JSNumber) (dirty : bool) (w : World) : World :=
  {| sockets := sockets w; object_urls := object_urls w; next_url := next_url w;
     images := images w; videoRef := videoRef w; faceCount := x;
     phase := phase w; needs_render := dirty;
     effect_ws := effect_ws w; screen := screen w; log := log w |}.

Definition with_phase (x : Phase) (w : World) : World :=
  {| sockets := sockets w; object_urls := object_urls w; next_url := next_url w;
     images := images w; videoRef := videoRef w; faceCount := faceCount w;
     phase := x; needs_render := needs_render w;
     effect_ws := effect_ws w; screen := screen w; log := log w |}.

Definition with_effect_ws (x : option SocketId) (w : World) : World :=
  {| sockets := sockets w; object_urls := object_urls w; next_url := next_url w;
     images := images w; videoRef := videoRef w; faceCount := faceCount w;
     phase := phase w; needs_render := needs_render w;
     effect_ws := x; screen := screen w; log := log w |}.

Definition with_screen (x : option View) (w : World) : World :=
  {| sockets := sockets w; object_urls := object_urls w; next_url := next_url w;
     images := images w; videoRef := videoRef w; faceCount := faceCount w;
     phase := phase w; needs_render := needs_render w;
     effect_ws := effect_ws w; screen := x; log := log w |}.

Definition emit (e : Effect) (w : World) : World :=
  {| sockets := sockets w; object_urls := object_urls w; next_url := next_url w;
     images := images w; videoRef := videoRef w; faceCount := faceCount w;
     phase := phase w; needs_render := needs_render w;
     effect_ws := effect_ws w; screen := screen w; log := e :: log w |}.

(** ** The monad of handler code: state plus JavaScript exceptions *)

Inductive Outcome (A : Type) : Type :=
  | Return (a : A) (w : World)
  | Throw (e : JSError) (w : World).
Arguments Return {A} a w.
Arguments Throw {A} e w.

Definition JS (A : Type) : Type := World -> Outcome A.

Definition ret {A} (a : A) : JS A := fun w => Return a w.

Definition bind {A B} (m : JS A) (k : A -> JS B) : JS B :=
  fun w => match m w with
           | Return a w' => k a w'
           | Throw e w' => Throw e w'
           end.

Definition modify (f : World -> World) : JS unit := fun w => Return tt (f w).
Definition throw {A} (e : JSError) : JS A := fun w => Throw e w.

Declare Scope js_scope.
Delimit Scope js_scope with js.
Notation "x <- m ;; k" := (bind m (fun x => k))
  (at level 100, m at next level, right associativity) : js_scope.
Notation "m ;; k" := (bind m (fun _ => k))
  (at level 100, right associativity) : js_scope.
Local Open Scope js_scope.

(** ** Primitive operations of the browser and of React *)

Definition truthy {A} (o : option A) : bool :=
  match o with Some _ => true | None => false end.

Definition fresh_socket : WebSocket :=
  {| readyState := CONNECTING; onopen := false; onmessage := false;
     onclose := false; onerror := false |}.

(** [new WebSocket(url)]: a new socket in state CONNECTING. *)
Definition new_WebSocket : JS SocketId := fun w =>
  let id := length (sockets w) in
  Return id (emit (NewWebSocket id) (with_sockets (sockets w ++ [fresh_socket]) w)).

Inductive Slot : Type := Onopen | Onmessage | Onclose | Onerror.

Definition assign (slot : Slot) (s : WebSocket) : WebSocket :=
  {| readyState := readyState s;
     onopen := match slot with Onopen => true | _ => onopen s end;
     onmessage := match slot with Onmessage => true | _ => onmessage s end;
     onclose := match slot with Onclose => true | _ => onclose s end;
     onerror := match slot with Onerror => true | _ => onerror s end |}.

(** [ws.on<slot> = handler] *)
Definition set_handler (id : SocketId) (slot : Slot) : JS unit :=
  modify (fun w => with_sockets (alter (assign slot) id (sockets w)) w).

(** [ws.readyState] *)
Definition get_readyState (id : SocketId) : JS JSNumber := fun w =>
  match sockets w !! id with
  | Some s => Return (readyState_code (readyState s)) w
  | None => Throw (TypeError "ws is undefined") w
  end.

Definition with_readyState (r : ReadyState) (s : WebSocket) : WebSocket :=
  {| readyState := r; onopen := onopen s; onmessage := onmessage s;
     onclose := onclose s; onerror := onerror s |}.

Definition start_closing (s : WebSocket) : WebSocket :=
  match readyState s with
  | CLOSING | CLOSED => s
  | CONNECTING | OPEN => with_readyState CLOSING s
  end.

(** [ws.close()] *)
Definition WebSocket_close (id : SocketId) : JS unit :=
  modify (fun w => emit (WsClose id) (with_sockets (alter start_closing id (sockets w)) w)).

Definition console_log (msg : string) : JS unit := modify (emit (ConsoleLog msg)).
Definition console_error (msg : string) : JS unit := modify (emit (ConsoleError msg)).

(** [new Blob(parts, { type })] *)
Definition new_Blob (parts : list Payload) (type : string) : JS Blob :=
  ret {| blob_parts := parts; blob_type := type |}.

(** [URL.createObjectURL(blob)]: a URL never handed out before. *)
Definition createObjectURL (b : Blob) : JS URL := fun w =>
  let u := next_url w in
  Return u (emit (CreateObjectURL u)
              (with_object_urls (<[u := b]> (object_urls w)) (S u) w)).

(** [URL.revokeObjectURL(url)] *)
Definition revokeObjectURL (u : URL) : JS unit :=
  modify (fun w => emit (RevokeObjectURL u)
                     (with_object_urls (delete u (object_urls w)) (next_url w) w)).

Definition blank_image : Image :=
  {| src := None; fetching := None; onload := None; bitmap := None;
     settled := false |}.

(** [new Image()] *)
Definition new_Image : JS ImgId := fun w =>
  Return (length (images w)) (with_images (images w ++ [blank_image]) w).

(** [img.src = url]: the load starts from the blob the URL names now. *)
Definition set_src (img : ImgId) (u : URL) : JS unit :=
  modify (fun w =>
    with_images
      (alter (fun i => {| src := Some u; fetching := object_urls w !! u;
                          onload := onload i; bitmap := None;
                          settled := false |}) img (images w)) w).

(** [img.onload = () => ...], the closure having captured [url]. *)
Definition set_onload (img : ImgId) (captured_url : URL) : JS unit :=
  modify (fun w =>
    with_images
      (alter (fun i => {| src := src i; fetching := fetching i;
                          onload := Some captured_url; bitmap := bitmap i;
                          settled := settled i |}) img (images w)) w).

(** [videoRef.current] *)
Definition videoRef_current : JS (option Canvas) := fun w => Return (videoRef w) w.

Inductive Context2D : Type := CanvasRenderingContext2D.

Definition null_deref {A} : JS A :=
  throw (TypeError "Cannot read properties of null").

(** [canvas.getContext('2d')] *)
Definition getContext_2d (c : option Canvas) : JS (option Context2D) :=
  match c with
  | Some c => ret (if context2d c then Some CanvasRenderingContext2D else None)
  | None => null_deref
  end.

(** [canvas.width], [canvas.height] *)
Definition get_width (c : option Canvas) : JS Z :=
  match c with Some c => ret (width c) | None => null_deref end.
Definition get_height (c : option Canvas) : JS Z :=
  match c with Some c => ret (height c) | None => null_deref end.

Definition paint (op : DrawOp) (c : Canvas) : Canvas :=
  {| width := width c; height := height c; context2d := context2d c;
     surface := op :: surface c |}.

(** [context.drawImage(img, dx, dy, dw, dh)]: paints the decoded picture
    of [img], scaled to the destination box, onto the context's canvas. *)
Definition drawImage (ctx : Context2D) (img : ImgId) (dx dy dw dh : Z) : JS unit :=
  modify (fun w =>
    let w' := emit (DrawImage img dx dy dw dh) w in
    match videoRef w, (images w !! img) ≫= bitmap with
    | Some c, Some bmp =>
        with_videoRef
          (Some (paint {| d_image := bmp; d_x := dx; d_y := dy;
                          d_w := dw; d_h := dh |} c)) w'
    | _, _ => w'
    end).

(** [useRef(null)] on the first render of an instance. *)
Definition useRef_null (first : bool) : JS unit :=
  modify (fun w => if first then with_videoRef None w else w).

(** [useState(init)]: the cell is set on the first render and read on
    later ones. *)
Definition useState (init : JSNumber) (first : bool) : JS JSNumber := fun w =>
  if first then Return init (with_faceCount init (needs_render w) w)
  else Return (faceCount w) w.

(** The state setter: ignored once the instance is unmounted, and a value
    that is [Object.is]-equal to the current one schedules no render.
    (React may still call the function body once more before it bails out
    of such an update; the output of that call is discarded and no effect
    runs for it.  Only committed renders are modelled: what is proved
    about renders is proved of [render_and_commit].) *)
Definition setFaceCount (v : JSNumber) : JS unit :=
  modify (fun w =>
    match phase w with
    | Mounted => if Object_is (faceCount w) v then w else with_faceCount v true w
    | _ => w
    end).

(** ** The component interface the runtime drives *)

Record Component : Type := {
  comp_render : bool -> JS (SocketId * View);
  comp_effect : SocketId -> JS unit;
  comp_cleanup : SocketId -> JS unit;
  comp_onopen : JS unit;
  comp_onmessage : Payload -> JS unit;
  comp_onclose : JS unit;
  comp_onerror : JS unit;
  comp_onload : URL -> ImgId -> JS unit }.

(** ** [src/client/src/App.tsx] *)
Module ClientApp.

Definition ws_onopen : JS unit := console_log "WebSocket is connected.".

Definition img_onload (url : URL) (img : ImgId) : JS unit :=
  cur <- videoRef_current ;;
  if truthy cur then
    cur <- videoRef_current ;;
    context <- getContext_2d cur ;;
    match context with
    | Some context =>
        c1 <- videoRef_current ;; w <- get_width c1 ;;
        c2 <- videoRef_current ;; h <- get_height c2 ;;
        drawImage context img 0 0 w h ;;
        revokeObjectURL url
    | None => ret tt
    end
  else ret tt.

Definition ws_onmessage (data : Payload) : JS unit :=
  blob <- new_Blob [data] "image/jpeg" ;;
  url <- createObjectURL blob ;;
  img <- new_Image ;;
  set_src img url ;;
  set_onload img url.

Definition ws_onclose : JS unit := console_log "WebSocket is closed.".

Definition ws_onerror : JS unit := console_error "WebSocket error:".

Definition effect (ws : SocketId) : JS unit :=
  set_handler ws Onopen ;;
  set_handler ws Onmessage ;;
  set_handler ws Onclose ;;
  set_handler ws Onerror.

Definition cleanup (ws : SocketId) : JS unit :=
  state <- get_readyState ws ;;
  if Object_is state (Finite false 1) then WebSocket_close ws else ret tt.

(** The function body: [useRef], [new WebSocket], and the JSX it
    returns; [useEffect(..., [ws])] is run by the runtime. *)
Definition App_render (first : bool) : JS (SocketId * View) :=
  useRef_null first ;;
  ws <- new_WebSocket ;;
  ret (ws, {| count_line := None |}).

Definition App : Component :=
  {| comp_render := App_render; comp_effect := effect;
     comp_cleanup := cleanup; comp_onopen := ws_onopen;
     comp_onmessage := ws_onmessage; comp_onclose := ws_onclose;
     comp_onerror := ws_onerror; comp_onload := img_onload |}.

End ClientApp.

(** ** [src/unnamed/part_000] *)
Module FaceCountApp.

Definition ws_onopen : JS unit := console_log "WebSocket is connected.".

Definition img_onload (url : URL) (img : ImgId) : JS unit :=
  cur <- videoRef_current ;;
  if truthy cur then
    cur <- videoRef_current ;;
    context <- getContext_2d cur ;;
    match context with
    | Some context =>
        c1 <- videoRef_current ;; w <- get_width c1 ;;
        c2 <- videoRef_current ;; h <- get_height c2 ;;
        drawImage context img 0 0 w h ;;
        revokeObjectURL url
    | None => ret tt
    end
  else ret tt.

Definition ws_onmessage (data : Payload) : JS unit :=
  match data with
  | PText text =>                 (* typeof event.data === 'string' *)
      setFaceCount (parseInt10 text)
  | PBinary _ =>
      blob <- new_Blob [data] "image/jpeg" ;;
      url <- createObjectURL blob ;;
      img <- new_Image ;;
      set_src img url ;;
      set_onload img url
  end.

Definition ws_onclose : JS unit := console_log "WebSocket is closed.".

Definition ws_onerror : JS unit := console_error "WebSocket error:".

Definition effect (ws : SocketId) : JS unit :=
  set_handler ws Onopen ;;
  set_handler ws Onmessage ;;
  set_handler ws Onclose ;;
  set_handler ws Onerror.

Definition cleanup (ws : SocketId) : JS unit :=
  state <- get_readyState ws ;;
  if Object_is state (Finite false 1) then WebSocket_close ws else ret tt.

(** The function body: [useRef], [useState(0)], [new WebSocket], and
    the JSX it returns, which shows [faceCount]. *)
Definition App_render (first : bool) : JS (SocketId * View) :=
  useRef_null first ;;
  faceCount <- useState (Finite false 0) first ;;
  ws <- new_WebSocket ;;
  ret (ws, {| count_line := Some faceCount |}).

Definition App : Component :=
  {| comp_render := App_render; comp_effect := effect;
     comp_cleanup := cleanup; comp_onopen := ws_onopen;
     comp_onmessage := ws_onmessage; comp_onclose := ws_onclose;
     comp_onerror := ws_onerror; comp_onload := img_onload |}.

End FaceCountApp.

(** ** The runtime: React's hook semantics and the browser's event loop *)

Inductive Event : Type :=
  | Mount (canvas : Canvas)          (* the instance is mounted; its <canvas> *)
  | Unmount
  | WsOpened (id : SocketId)         (* the handshake succeeded *)
  | WsMessage (id : SocketId) (data : Payload)
  | WsFailed (id : SocketId)         (* the connection failed *)
  | WsClosed (id : SocketId)         (* the connection ended *)
  | ImgSettled (img : ImgId).        (* fetch and decode of an image ended *)

Section Runtime.

Variable C : Component.

(** How the browser decodes the bytes behind an object URL; [None] when
    they are no picture. *)
Variable decode_image : Blob -> option Bitmap.

(** Run a handler as a task; an exception escaping it is reported. *)
Definition exec (h : JS unit) (w : World) : World :=
  match h w with
  | Return _ w' => w'
  | Throw e w' => emit (Uncaught e) w'
  end.

(** One render: run the function body, commit its output (attaching the
    canvas to [videoRef] on mount), then [useEffect] with dependencies
    [[ws]]: when [ws] is not the socket of the previous effect, run the
    previous cleanup and then the effect. *)
Definition render_and_commit (attach : option Canvas) (w : World) : World :=
  match comp_render C (truthy attach) w with
  | Throw e w' => emit (Uncaught e) w'
  | Return (ws, view) w1 =>
      let w2 := with_screen (Some view) w1 in
      let w3 := match attach with
                | Some c => with_videoRef (Some c) w2
                | None => w2
                end in
      match effect_ws w3 with
      | Some old =>
          if decide (old = ws) then w3
          else with_effect_ws (Some ws)
                 (exec (comp_effect C ws) (exec (comp_cleanup C old) w3))
      | None => with_effect_ws (Some ws) (exec (comp_effect C ws) w3)
      end
  end.

(** A pending state update re-renders the component.  Several updates
    made before the render are served by this one render, which reads the
    cell as the last of them left it. *)
Definition flush (w : World) : World :=
  if needs_render w
  then render_and_commit None (with_faceCount (faceCount w) false w)
  else w.

Definition unmount (w : World) : World :=
  let w1 := match effect_ws w with
            | Some ws => exec (comp_cleanup C ws) w
            | None => w
            end in
  with_screen None (with_videoRef None (with_phase Unmounted w1)).

Definition set_state (r : ReadyState) (id : SocketId) (w : World) : World :=
  with_sockets (alter (with_readyState r) id (sockets w)) w.

(** An event reaches a handler only if one is installed.  The render a
    handler schedules is made here when the handler returns; a scheduler
    may instead leave it to a later task, after further events.  The
    statements about what a text message displays are therefore made on
    the state cell and on [render_and_commit], for any world, and do not
    depend on when the render is made. *)
Definition fire (installed : bool) (h : JS unit) (w : World) : World :=
  if installed then flush (exec h w) else w.

Definition settle (bmp : option Bitmap) (i : Image) : Image :=
  {| src := src i; fetching := fetching i; onload := onload i;
     bitmap := bmp; settled := true |}.

Definition step (w : World) (ev : Event) : World :=
  match ev with
  | Mount canvas =>
      match phase w with
      | Fresh => render_and_commit (Some canvas) (with_phase Mounted w)
      | _ => w
      end
  | Unmount =>
      match phase w with
      | Mounted => unmount w
      | _ => w
      end
  | WsOpened id =>
      match sockets w !! id with
      | Some s =>
          match readyState s with
          | CONNECTING => fire (onopen s) (comp_onopen C) (set_state OPEN id w)
          | _ => w
          end
      | None => w
      end
  | WsMessage id data =>
      match sockets w !! id with
      | Some s =>
          match readyState s with
          | OPEN => fire (onmessage s) (comp_onmessage C data) w
          | _ => w
          end
      | None => w
      end
  | WsFailed id =>
      match sockets w !! id with
      | Some s =>
          match readyState s with
          | CLOSED => w
          | _ => fire (onclose s) (comp_onclose C)
                   (set_state CLOSED id (fire (onerror s) (comp_onerror C) w))
          end
      | None => w
      end
  | WsClosed id =>
      match sockets w !! id with
      | Some s =>
          match readyState s with
          | CLOSED => w
          | _ => fire (onclose s) (comp_onclose C) (set_state CLOSED id w)
          end
      | None => w
      end
  | ImgSettled img =>
      match images w !! img with
      | Some i =>
          if settled i then w
          else
            match src i, fetching i ≫= decode_image with
            | Some _, Some bmp =>
                let w1 := with_images (alter (settle (Some bmp)) img (images w)) w in
                match onload i with
                | Some url => flush (exec (comp_onload C url img) w1)
                | None => w1
                end
            | _, _ => with_images (alter (settle None) img (images w)) w
            end
      | None => w
      end
  end.

Definition run (w : World) (evs : list Event) : World := fold_left step evs w.

End Runtime.

(** What is on screen. *)
Definition displayed_count (w : World) : option JSNumber :=
  screen w ≫= count_line.

Definition opened_sockets (l : list Effect) : list SocketId :=
  omap (fun e => match e with NewWebSocket id => Some id | _ => None end) l.

Definition closed_sockets (l : list Effect) : list SocketId :=
  omap (fun e => match e with WsClose id => Some id | _ => None end) l.

(** The component is one of the two versions of the repository. *)
Definition is_App (C : Component) : Prop :=
  C = ClientApp.App \/ C = FaceCountApp.App.

(** ** What each handler does, as a world transformer *)

(** The world after [drawImage(img, 0, 0, width, height); revokeObjectURL(url)]
    on canvas [c]. *)
Definition painted (url : URL) (img : ImgId) (c : Canvas) (w : World) : World :=
  let w1 :=
    match (images w !! img) ≫= bitmap with
    | Some bmp =>
        with_videoRef
          (Some (paint {| d_image := bmp; d_x := 0; d_y := 0;
                          d_w := width c; d_h := height c |} c))
          (emit (DrawImage img 0 0 (width c) (height c)) w)
    | None => emit (DrawImage img 0 0 (width c) (height c)) w
    end in
  emit (RevokeObjectURL url)
    (with_object_urls (delete url (object_urls w1)) (next_url w1) w1).

(** The world after the binary branch of [ws.onmessage]. *)
Definition frame_image (data : Payload) (u : URL) : Image :=
  {| src := Some u;
     fetching := Some {| blob_parts := [data]; blob_type := "image/jpeg" |};
     onload := Some u; bitmap := None; settled := false |}.

Definition frame_received (data : Payload) (w : World) : World :=
  let u := next_url w in
  let b := {| blob_parts := [data]; blob_type := "image/jpeg" |} in
  with_images (images w ++ [frame_image data u])
    (emit (CreateObjectURL u) (with_object_urls (<[u := b]> (object_urls w)) (S u) w)).


(** ** Relations between worlds used to follow a run *)

(** Calls other than a paint or a release of an object URL. *)
Definition is_quiet (e : Effect) : bool :=
  match e with
  | DrawImage _ _ _ _ _ | RevokeObjectURL _ => false
  | _ => true
  end.

Definition extends_quietly (l l' : list Effect) : Prop :=
  exists es, l' = es ++ l /\ forallb is_quiet es = true.

(** [w'] differs from [w] at most in its sockets, in the socket the effect
    holds, and by calls that neither paint nor release. *)
Record only_network (w w' : World) : Prop := {
  on_images : images w' = images w;
  on_urls : object_urls w' = object_urls w;
  on_next : next_url w' = next_url w;
  on_videoRef : videoRef w' = videoRef w;
  on_faceCount : faceCount w' = faceCount w;
  on_phase : phase w' = phase w;
  on_needs : needs_render w' = needs_render w;
  on_screen : screen w' = screen w;
  on_log : extends_quietly (log w) (log w') }.

(** [w'] has the images and object URLs of [w], and its log adds no paint
    and no release. *)
Record same_media (w w' : World) : Prop := {
  sm_images : images w' = images w;
  sm_urls : object_urls w' = object_urls w;
  sm_next : next_url w' = next_url w;
  sm_log : extends_quietly (log w) (log w') }.

(** Every event does one of four things to the images and object URLs:
    nothing; receive a frame; settle an image without painting; settle an
    image, paint it and release its URL. *)
Inductive media_step (w w' : World) : Prop :=
  | ms_quiet :
      same_media w w' -> media_step w w'
  | ms_frame data :
      same_media (frame_received data w) w' -> media_step w w'
  | ms_settle i img bmp :
      images w !! i = Some img -> settled img = false ->
      same_media (with_images (alter (settle bmp) i (images w)) w) w' ->
      media_step w w'
  | ms_paint i img u bmp c :
      images w !! i = Some img -> settled img = false ->
      onload img = Some u -> videoRef w = Some c -> context2d c = true ->
      same_media
        (painted u i c (with_images (alter (settle (Some bmp)) i (images w)) w)) w' ->
      media_step w w'.

(** The object URLs released so far (newest first). *)
Definition released_urls (l : list Effect) : list URL :=
  omap (fun e => match e with RevokeObjectURL u => Some u | _ => None end) l.

(** The shape of a log (newest first): a release occurs only directly
    after a paint, and every paint is directly followed by the release of
    the URL its image was loaded from. *)
Inductive paired (imgs : list Image) : list Effect -> Prop :=
  | paired_nil : paired imgs []
  | paired_quiet e l :
      is_quiet e = true -> paired imgs l -> paired imgs (e :: l)
  | paired_paint u i img dx dy dw dh l :
      imgs !! i = Some img -> src img = Some u -> paired imgs l ->
      paired imgs (RevokeObjectURL u :: DrawImage i dx dy dw dh :: l).

(** What every reachable world satisfies about images and object URLs. *)
Record media_inv (w : World) : Prop := {
  mi_closure : forall i img u,
    images w !! i = Some img -> onload img = Some u -> src img = Some u;
  mi_bound : forall i img u,
    images w !! i = Some img -> src img = Some u -> (u < next_url w)%nat;
  mi_inj : forall i j a b u,
    images w !! i = Some a -> images w !! j = Some b ->
    src a = Some u -> src b = Some u -> i = j;
  mi_live : forall i img u,
    images w !! i = Some img -> src img = Some u -> settled img = false ->
    is_Some (object_urls w !! u) /\ u ∉ released_urls (log w);
  mi_released : forall u,
    u ∈ released_urls (log w) ->
    object_urls w !! u = None /\ (u < next_url w)%nat;
  mi_nodup : NoDup (released_urls (log w));
  mi_paired : paired (images w) (log w) }.

(** An object URL that will never be released: it is registered, was not
    released, and no image still loading holds it. *)
Record leaked (u : URL) (w : World) : Prop := {
  lk_live : is_Some (object_urls w !! u);
  lk_bound : (u < next_url w)%nat;
  lk_kept : u ∉ released_urls (log w);
  lk_done : forall j img,
    images w !! j = Some img -> onload img = Some u -> settled img = true }.

(** ** The wire protocol, in the specification's words *)

(** A valid base-10 integer string: an optional sign, then one or more
    decimal digits and nothing else. *)
Definition all_digits (s : JSString) : bool :=
  negb (bool_decide (s = [])) && forallb is_digit10 s.

Definition is_integer_text (s : JSString) : bool :=
  match s with
  | c :: ds => if ((c =? 45) || (c =? 43))%N then all_digits ds else all_digits s
  | [] => false
  end.

(** The number a digit string denotes, by position. *)
Fixpoint decimal_value (ds : JSString) : N :=
  match ds with
  | [] => 0
  | c :: ds' => ((c - 48) * 10 ^ N.of_nat (length ds') + decimal_value ds')%N
  end.

(** The integer a valid integer string denotes. *)
Definition integer_value (s : JSString) : Z :=
  match s with
  | c :: ds =>
      if (c =? 45)%N then - Z.of_N (decimal_value ds)
      else if (c =? 43)%N then Z.of_N (decimal_value ds)
      else Z.of_N (decimal_value s)
  | [] => 0
  end.

(** A text with no number to read: after leading white space and an
    optional sign, it does not go on with a decimal digit. *)
Definition lacks_number (s : JSString) : bool :=
  match trim_start s with
  | c :: s' =>
      if ((c =? 45) || (c =? 43))%N
      then match s' with d :: _ => negb (is_digit10 d) | [] => true end
      else negb (is_digit10 c)
  | [] => true
  end.

(** ** Relations on the hook state *)

(** [w'] has the hook state and the screen of [w]. *)
Record same_ui (w w' : World) : Prop := {
  su_faceCount : faceCount w' = faceCount w;
  su_phase : phase w' = phase w;
  su_needs : needs_render w' = needs_render w;
  su_screen : screen w' = screen w }.

(** ** A concrete environment for the examples *)

(** A decoder that accepts any non-empty binary blob as a 1-pixel-high
    picture, and rejects text. *)
Definition example_decode (b : Blob) : option Bitmap :=
  match blob_parts b with
  | [PBinary (p :: ps)] =>
      Some {| natural_width := Z.of_nat (length (p :: ps));
              natural_height := 1; pixels := p :: ps |}
  | _ => None
  end.

(** The default <canvas>: 300 by 150, with a 2D context. *)
Definition example_canvas : Canvas :=
  {| width := 300; height := 150; context2d := true; surface := [] |}.

(** A <canvas> on which [getContext('2d')] returns null. *)
Definition contextless_canvas : Canvas :=
  {| width := 300; height := 150; context2d := false; surface := [] |}.

Definition example_frame : Payload := PBinary [255; 216; 255]%N.

(** How an image can change over a run: it stays as it is until it is
    settled, and stays settled afterwards. *)
Definition ages (a b : Image) : Prop :=
  (settled b = false -> b = a) /\ (settled a = true -> settled b = true).

(** ** Connections opened during a mount *)

(** [w'] has the phase and the pending-render flag of [w], and no socket
    was opened in between. *)
Record same_opened (w w' : World) : Prop := {
  so_needs : needs_render w' = needs_render w;
  so_phase : phase w' = phase w;
  so_opened : opened_sockets (log w') = opened_sockets (log w) }.

(** One connection per mount: none before the mount, one from then on. *)
Definition one_socket (w : World) : Prop :=
  needs_render w = false /\
  length (opened_sockets (log w)) = match phase w with Fresh => 0%nat | _ => 1%nat end.

(** ** Further invariants of a run *)

(** Which handler slots of a socket are assigned. *)
Definition wiring (s : WebSocket) : bool * bool * bool * bool :=
  (onopen s, onmessage s, onclose s, onerror s).

Definition fully_wired : bool * bool * bool * bool := (true, true, true, true).

(** Every socket has its four handlers; the effect holds an existing
    socket, and holds one whenever the component is mounted; no render is
    pending. *)
Record sockets_inv (w : World) : Prop := {
  si_wired : wiring <$> sockets w = replicate (length (sockets w)) fully_wired;
  si_effect : forall ws, effect_ws w = Some ws -> (ws < length (sockets w))%nat;
  si_mounted : phase w = Mounted -> is_Some (effect_ws w);
  si_idle : needs_render w = false }.

(** [w'] has the wiring, the effect socket, the phase and the
    pending-render flag of [w]. *)
Record same_net (w w' : World) : Prop := {
  sn_wiring : wiring <$> sockets w' = wiring <$> sockets w;
  sn_effect : effect_ws w' = effect_ws w;
  sn_phase : phase w' = phase w;
  sn_needs : needs_render w' = needs_render w }.

(** The images painted so far (newest first). *)
Definition drawn_images (l : list Effect) : list ImgId :=
  omap (fun e => match e with DrawImage i _ _ _ _ => Some i | _ => None end) l.

(** While the component is not mounted, [videoRef.current] is null. *)
Definition detached (w : World) : Prop :=
  phase w <> Mounted -> videoRef w = None.

(** [w'] has the phase and the canvas reference of [w]. *)
Record same_ref (w w' : World) : Prop := {
  sr_phase : phase w' = phase w;
  sr_videoRef : videoRef w' = videoRef w }.

(** The registered object URLs are the ones handed out and not released. *)
Definition urls_accounted (w : World) : Prop :=
  forall u, is_Some (object_urls w !! u) <->
            (u < next_url w)%nat /\ u ∉ released_urls (log w).

(** The k-th image was given the k-th object URL, as its source and in
    its [onload] closure. *)
Record images_paired (w : World) : Prop := {
  ip_count : length (images w) = next_url w;
  ip_image : forall i img,
    images w !! i = Some img ->
    src img = Some i /\ onload img = Some i /\ is_Some (fetching img) }.

(** The characters of an optional sign. *)
Definition sign_text (sign : option bool) : JSString :=
  match sign with
  | Some true => [45%N]
  | Some false => [43%N]
  | None => []
  end.

Definition is_minus (sign : option bool) : bool :=
  match sign with Some true => true | _ => false end.

(** A text does not go on with a decimal digit. *)
Definition stops_number (rest : JSString) : bool :=
  match rest with c :: _ => negb (is_digit10 c) | [] => true end.

(** The calls a render adds to the log: one [new WebSocket], then a
    [close] of the previous socket if that one is open. *)
Definition render_calls (w : World) : list Effect :=
  match effect_ws w with
  | Some old =>
      match readyState <$> sockets w !! old with
      | Some OPEN => [WsClose old; NewWebSocket (length (sockets w))]
      | _ => [NewWebSocket (length (sockets w))]
      end
  | None => [NewWebSocket (length (sockets w))]
  end.

#[global] Instance ReadyState_eq_dec : EqDecision ReadyState.
Proof. solve_decision. Defined.
Lemma onload_same url img : FaceCountApp.img_onload url img = ClientApp.img_onload url img.
Proof. reflexivity. Qed.

Lemma onload_unmounted url img w :
  videoRef w = None -> ClientApp.img_onload url img w = Return tt w.
Proof.
  intros H. unfold ClientApp.img_onload, bind, videoRef_current.
  rewrite H. reflexivity.
Qed.

Lemma onload_no_context url img w c :
  videoRef w = Some c -> context2d c = false ->
  ClientApp.img_onload url img w = Return tt w.
Proof.
  intros H Hc. unfold ClientApp.img_onload, bind, videoRef_current.
  rewrite H. cbn. rewrite H. cbn. rewrite Hc. reflexivity.
Qed.

Lemma onload_paints url img w c :
  videoRef w = Some c -> context2d c = true ->
  ClientApp.img_onload url img w = Return tt (painted url img c w).
Proof.
  intros H Hc. unfold ClientApp.img_onload, bind, videoRef_current.
  repeat (first [rewrite H | rewrite Hc]; cbn).
  unfold painted, revokeObjectURL, modify.
  destruct (images w !! img ≫= bitmap); reflexivity.
Qed.

Lemma alter_last {A} (f : A -> A) (l : list A) (x : A) :
  alter f (length l) (l ++ [x]) = l ++ [f x].
Proof. induction l; cbn; [reflexivity | f_equal; assumption]. Qed.

Lemma binary_branch data w :
  ClientApp.ws_onmessage data w = Return tt (frame_received data w).
Proof.
  unfold ClientApp.ws_onmessage, bind, new_Blob, ret, createObjectURL,
    new_Image, set_src, set_onload, modify, frame_received. cbn.
  rewrite alter_last. cbn. rewrite alter_last. cbn.
  rewrite lookup_insert_eq. reflexivity.
Qed.

Lemma face_binary_branch bytes w :
  FaceCountApp.ws_onmessage (PBinary bytes) w =
  Return tt (frame_received (PBinary bytes) w).
Proof. apply (binary_branch (PBinary bytes)). Qed.

(** ** Frame lemmas: what the socket handlers and a render leave alone *)

Lemma log_ext_nil {A} (l : list A) : l = [] ++ l.
Proof. reflexivity. Qed.

Lemma log_ext_cons {A} (e : A) es l l' : l' = es ++ l -> e :: l' = (e :: es) ++ l.
Proof. intros ->. reflexivity. Qed.

Ltac solve_ext := first [ apply log_ext_nil | apply log_ext_cons; solve_ext ].

Ltac solve_network :=
  split; cbn; try reflexivity;
  eexists; split; [solve_ext | reflexivity].

Lemma extends_quietly_refl l : extends_quietly l l.
Proof. exists []. split; reflexivity. Qed.

Lemma extends_quietly_trans l1 l2 l3 :
  extends_quietly l1 l2 -> extends_quietly l2 l3 -> extends_quietly l1 l3.
Proof.
  intros (es1 & -> & H1) (es2 & -> & H2). exists (es2 ++ es1).
  split; [apply app_assoc |].
  rewrite forallb_app, H1, H2. reflexivity.
Qed.

Lemma only_network_refl w : only_network w w.
Proof. split; try reflexivity. apply extends_quietly_refl. Qed.

Lemma only_network_trans w1 w2 w3 :
  only_network w1 w2 -> only_network w2 w3 -> only_network w1 w3.
Proof.
  intros [] []. split; try congruence.
  eapply extends_quietly_trans; eassumption.
Qed.

Lemma network_effect ws w :
  only_network w (exec (ClientApp.effect ws) w).
Proof. solve_network. Qed.

Lemma network_cleanup ws w :
  only_network w (exec (ClientApp.cleanup ws) w).
Proof.
  unfold exec, ClientApp.cleanup, bind, get_readyState.
  destruct (sockets w !! ws) as [s|]; [| solve_network].
  destruct (readyState s); cbn; solve_network.
Qed.

Lemma network_onopen w : only_network w (exec ClientApp.ws_onopen w).
Proof. solve_network. Qed.

Lemma network_onclose w : only_network w (exec ClientApp.ws_onclose w).
Proof. solve_network. Qed.

Lemma network_onerror w : only_network w (exec ClientApp.ws_onerror w).
Proof. solve_network. Qed.

Lemma network_set_state r id w : only_network w (set_state r id w).
Proof. solve_network. Qed.

(** ** Renders and the flush after a task *)

Lemma network_with_effect_ws x w : only_network w (with_effect_ws x w).
Proof. solve_network. Qed.

Lemma same_media_refl w : same_media w w.
Proof. split; try reflexivity. apply extends_quietly_refl. Qed.

Lemma same_media_trans w1 w2 w3 :
  same_media w1 w2 -> same_media w2 w3 -> same_media w1 w3.
Proof.
  intros [] []. split; try congruence.
  eapply extends_quietly_trans; eassumption.
Qed.

Lemma network_same_media w w' : only_network w w' -> same_media w w'.
Proof. intros []. split; assumption. Qed.

(** The effect phase of a commit touches sockets only. *)
Lemma network_effects C ws w :
  is_App C ->
  only_network w
    match effect_ws w with
    | Some old =>
        if decide (old = ws) then w
        else with_effect_ws (Some ws)
               (exec (comp_effect C ws) (exec (comp_cleanup C old) w))
    | None => with_effect_ws (Some ws) (exec (comp_effect C ws) w)
    end.
Proof.
  intros [-> | ->]; cbn [comp_effect comp_cleanup ClientApp.App FaceCountApp.App].
  all: destruct (effect_ws w) as [old|]; [destruct (decide (old = ws)) |].
  all: try apply only_network_refl.
  all: repeat first
    [ apply network_with_effect_ws | apply network_effect
    | apply (network_effect ws) | apply (network_cleanup old)
    | eapply only_network_trans; [| apply network_with_effect_ws]
    | eapply only_network_trans; [| apply (network_effect ws)] ].
Qed.

(** A re-render changes the screen and, beyond that, sockets only. *)
Lemma rerender_client w :
  only_network (with_screen (Some {| count_line := None |}) w)
    (render_and_commit ClientApp.App None w).
Proof.
  unfold render_and_commit.
  cbn [comp_render ClientApp.App truthy].
  unfold ClientApp.App_render, bind, useRef_null, modify, new_WebSocket, ret.
  cbn beta iota.
  eapply only_network_trans; [| apply (network_effects ClientApp.App); left; reflexivity].
  solve_network.
Qed.

Lemma rerender_face w :
  only_network (with_screen (Some {| count_line := Some (faceCount w) |}) w)
    (render_and_commit FaceCountApp.App None w).
Proof.
  unfold render_and_commit.
  cbn [comp_render FaceCountApp.App truthy].
  unfold FaceCountApp.App_render, bind, useRef_null, useState, modify, new_WebSocket, ret.
  cbn beta iota.
  eapply only_network_trans; [| apply (network_effects FaceCountApp.App); right; reflexivity].
  solve_network.
Qed.

(** The first render also resets the hook cells and attaches the canvas. *)
Lemma mount_client c w :
  only_network
    (with_screen (Some {| count_line := None |}) (with_videoRef (Some c) w))
    (render_and_commit ClientApp.App (Some c) w).
Proof.
  unfold render_and_commit.
  cbn [comp_render ClientApp.App truthy].
  unfold ClientApp.App_render, bind, useRef_null, modify, new_WebSocket, ret.
  cbn beta iota.
  eapply only_network_trans; [| apply (network_effects ClientApp.App); left; reflexivity].
  solve_network.
Qed.

Lemma mount_face c w :
  only_network
    (with_screen (Some {| count_line := Some (Finite false 0) |})
       (with_videoRef (Some c) (with_faceCount (Finite false 0) (needs_render w) w)))
    (render_and_commit FaceCountApp.App (Some c) w).
Proof.
  unfold render_and_commit.
  cbn [comp_render FaceCountApp.App truthy].
  unfold FaceCountApp.App_render, bind, useRef_null, useState, modify, new_WebSocket, ret.
  cbn beta iota.
  eapply only_network_trans; [| apply (network_effects FaceCountApp.App); right; reflexivity].
  solve_network.
Qed.

Lemma render_same_media C attach w :
  is_App C -> same_media w (render_and_commit C attach w).
Proof.
  intros [-> | ->]; destruct attach as [c|].
  - destruct (mount_client c w). split; cbn in *; assumption.
  - destruct (rerender_client w). split; cbn in *; assumption.
  - destruct (mount_face c w). split; cbn in *; assumption.
  - destruct (rerender_face w). split; cbn in *; assumption.
Qed.

Lemma flush_same_media C w : is_App C -> same_media w (flush C w).
Proof.
  intros HC. unfold flush. destruct (needs_render w); [| apply same_media_refl].
  destruct (render_same_media C None (with_faceCount (faceCount w) false w) HC).
  split; cbn in *; assumption.
Qed.

Lemma fire_same_media C b h w :
  is_App C -> (forall w0, same_media w0 (exec h w0)) -> same_media w (fire C b h w).
Proof.
  intros HC Hh. unfold fire. destruct b; [| apply same_media_refl].
  eapply same_media_trans; [apply Hh | apply flush_same_media, HC].
Qed.

Lemma flush_videoRef C w : is_App C -> videoRef (flush C w) = videoRef w.
Proof.
  intros HC. unfold flush. destruct (needs_render w); [| reflexivity].
  destruct HC as [-> | ->].
  - destruct (rerender_client (with_faceCount (faceCount w) false w)) as [_ _ _ H _ _ _ _ _].
    exact H.
  - destruct (rerender_face (with_faceCount (faceCount w) false w)) as [_ _ _ H _ _ _ _ _].
    exact H.
Qed.

(** ** Every event is one of the four media steps *)

Ltac solve_media :=
  split; cbn; try reflexivity;
  eexists; split; [solve_ext | reflexivity].

Lemma media_onopen C w : is_App C -> same_media w (exec (comp_onopen C) w).
Proof. intros [-> | ->]; apply network_same_media, network_onopen. Qed.

Lemma media_onclose C w : is_App C -> same_media w (exec (comp_onclose C) w).
Proof. intros [-> | ->]; apply network_same_media, network_onclose. Qed.

Lemma media_onerror C w : is_App C -> same_media w (exec (comp_onerror C) w).
Proof. intros [-> | ->]; apply network_same_media, network_onerror. Qed.

Lemma media_cleanup C ws w : is_App C -> same_media w (exec (comp_cleanup C ws) w).
Proof. intros [-> | ->]; apply network_same_media, network_cleanup. Qed.

Lemma media_set_state r id w : same_media w (set_state r id w).
Proof. apply network_same_media, network_set_state. Qed.

Lemma media_setFaceCount v w : same_media w (exec (setFaceCount v) w).
Proof.
  unfold exec, setFaceCount, modify.
  destruct (phase w); try apply same_media_refl.
  destruct (Object_is (faceCount w) v); [apply same_media_refl | solve_media].
Qed.

Lemma media_unmount C w : is_App C -> same_media w (unmount C w).
Proof.
  intros HC. unfold unmount.
  destruct (effect_ws w) as [ws|].
  - destruct (media_cleanup C ws w HC). split; cbn; assumption.
  - solve_media.
Qed.

Lemma exec_onmessage_client data w :
  exec (ClientApp.ws_onmessage data) w = frame_received data w.
Proof. unfold exec. rewrite binary_branch. reflexivity. Qed.

Lemma exec_onload C url img w :
  is_App C ->
  exec (comp_onload C url img) w =
  match videoRef w with
  | Some c => if context2d c then painted url img c w else w
  | None => w
  end.
Proof.
  intros HC. unfold exec.
  replace (comp_onload C url img) with (ClientApp.img_onload url img)
    by (destruct HC as [-> | ->]; reflexivity).
  destruct (videoRef w) as [c|] eqn:Hv.
  - destruct (context2d c) eqn:Hc.
    + rewrite (onload_paints url img w c Hv Hc). reflexivity.
    + rewrite (onload_no_context url img w c Hv Hc). reflexivity.
  - rewrite (onload_unmounted url img w Hv). reflexivity.
Qed.

Lemma step_media C dec w ev : is_App C -> media_step w (step C dec w ev).
Proof.
  intros HC. destruct ev as [canvas| |id|id data|id|id|img]; cbn [step].
  - (* Mount *)
    apply ms_quiet. destruct (phase w); try apply same_media_refl.
    destruct (render_same_media C (Some canvas) (with_phase Mounted w) HC).
    split; cbn in *; assumption.
  - (* Unmount *)
    apply ms_quiet. destruct (phase w); try apply same_media_refl.
    apply media_unmount, HC.
  - (* WsOpened *)
    apply ms_quiet. destruct (sockets w !! id) as [s|]; [| apply same_media_refl].
    destruct (readyState s); try apply same_media_refl.
    eapply same_media_trans; [apply (media_set_state OPEN id) |].
    apply fire_same_media; [exact HC | intros; apply media_onopen, HC].
  - (* WsMessage *)
    destruct (sockets w !! id) as [s|]; [| apply ms_quiet, same_media_refl].
    destruct (readyState s); try apply ms_quiet, same_media_refl.
    unfold fire. destruct (onmessage s); [| apply ms_quiet, same_media_refl].
    assert (Hframe : media_step w (flush C (frame_received data w)))
      by (apply (ms_frame _ _ data), flush_same_media, HC).
    destruct HC as [-> | ->]; cbn [comp_onmessage ClientApp.App FaceCountApp.App].
    + rewrite exec_onmessage_client. exact Hframe.
    + destruct data as [text|bytes].
      * apply ms_quiet. eapply same_media_trans; [apply media_setFaceCount |].
        apply flush_same_media. right; reflexivity.
      * change (FaceCountApp.ws_onmessage (PBinary bytes))
          with (ClientApp.ws_onmessage (PBinary bytes)).
        rewrite exec_onmessage_client. exact Hframe.
  - (* WsFailed *)
    apply ms_quiet. destruct (sockets w !! id) as [s|]; [| apply same_media_refl].
    assert (same_media w
              (fire C (onclose s) (comp_onclose C)
                 (set_state CLOSED id (fire C (onerror s) (comp_onerror C) w)))).
    { eapply same_media_trans;
        [apply fire_same_media; [exact HC | intros; apply media_onerror, HC] |].
      eapply same_media_trans; [apply (media_set_state CLOSED id) |].
      apply fire_same_media; [exact HC | intros; apply media_onclose, HC]. }
    destruct (readyState s); try assumption. apply same_media_refl.
  - (* WsClosed *)
    apply ms_quiet. destruct (sockets w !! id) as [s|]; [| apply same_media_refl].
    assert (same_media w
              (fire C (onclose s) (comp_onclose C) (set_state CLOSED id w))).
    { eapply same_media_trans; [apply (media_set_state CLOSED id) |].
      apply fire_same_media; [exact HC | intros; apply media_onclose, HC]. }
    destruct (readyState s); try assumption. apply same_media_refl.
  - (* ImgSettled *)
    destruct (images w !! img) as [i|] eqn:Hi; [| apply ms_quiet, same_media_refl].
    destruct (settled i) eqn:Hs; [apply ms_quiet, same_media_refl |].
    destruct (src i) as [u0|];
      [| apply (ms_settle _ _ img i None Hi Hs), same_media_refl].
    destruct (fetching i ≫= dec) as [bmp|];
      [| apply (ms_settle _ _ img i None Hi Hs), same_media_refl].
    destruct (onload i) as [url|] eqn:Ho;
      [| apply (ms_settle _ _ img i (Some bmp) Hi Hs), same_media_refl].
    rewrite (exec_onload C url img _ HC). cbn [videoRef with_images].
    destruct (videoRef w) as [c|] eqn:Hv.
    + destruct (context2d c) eqn:Hc.
      * apply (ms_paint _ _ img i url bmp c Hi Hs Ho Hv Hc).
        apply flush_same_media, HC.
      * apply (ms_settle _ _ img i (Some bmp) Hi Hs). apply flush_same_media, HC.
    + apply (ms_settle _ _ img i (Some bmp) Hi Hs). apply flush_same_media, HC.
Qed.

(** ** The invariant on images and object URLs *)

Lemma released_quiet es l :
  forallb is_quiet es = true -> released_urls (es ++ l) = released_urls l.
Proof.
  induction es as [|e es IH]; cbn; [reflexivity |].
  intros [He Hes]%andb_prop. rewrite <- (IH Hes).
  destruct e; try discriminate; reflexivity.
Qed.

Lemma released_extends l l' :
  extends_quietly l l' -> released_urls l' = released_urls l.
Proof. intros (es & -> & H). apply released_quiet, H. Qed.

Lemma paired_extends imgs l l' :
  extends_quietly l l' -> paired imgs l -> paired imgs l'.
Proof.
  intros (es & -> & H) Hp. induction es as [|e es IH]; cbn; [exact Hp |].
  cbn in H. apply andb_prop in H as [He Hes].
  apply paired_quiet; [exact He | apply IH, Hes].
Qed.

Lemma paired_mono imgs imgs' l :
  (forall i img, imgs !! i = Some img ->
     exists img', imgs' !! i = Some img' /\ src img' = src img) ->
  paired imgs l -> paired imgs' l.
Proof.
  intros Hgrow Hp. induction Hp as [|e l He _ IH|u i img dx dy dw dh l Hi Hs _ IH].
  - constructor.
  - apply paired_quiet; assumption.
  - destruct (Hgrow i img Hi) as (img' & Hi' & Hs').
    eapply paired_paint; [exact Hi' | congruence | exact IH].
Qed.

Lemma media_inv_initial : media_inv initial_world.
Proof.
  split; cbn; try (intros; discriminate).
  - intros u H. inversion H.
  - constructor.
  - constructor.
Qed.

Lemma media_inv_same w w' : same_media w w' -> media_inv w -> media_inv w'.
Proof.
  intros [Hi Hu Hn Hl] [].
  split; rewrite ?Hi, ?Hu, ?Hn, ?(released_extends _ _ Hl); try assumption.
  eapply paired_extends; eassumption.
Qed.

Lemma media_inv_frame data w : media_inv w -> media_inv (frame_received data w).
Proof.
  intros [Hc Hb Hj Hl Hr Hd Hp].
  split; cbn [frame_received images object_urls next_url log with_images emit
              with_object_urls released_urls omap].
  - intros i img u [[_ H] | [_ <-]]%lookup_snoc_Some; [eauto |].
    cbn. congruence.
  - intros i img u [[_ H] | [_ <-]]%lookup_snoc_Some Hs.
    + specialize (Hb i img u H Hs). lia.
    + cbn in Hs. injection Hs as <-. lia.
  - intros i j a b u [[_ Ha] | [-> <-]]%lookup_snoc_Some
      [[_ Hb'] | [-> <-]]%lookup_snoc_Some Hsa Hsb.
    + eauto.
    + cbn in Hsb. injection Hsb as <-. specialize (Hb i a _ Ha Hsa). lia.
    + cbn in Hsa. injection Hsa as <-. specialize (Hb j b _ Hb' Hsb). lia.
    + reflexivity.
  - intros i img u [[_ H] | [_ <-]]%lookup_snoc_Some Hs Hset.
    + destruct (Hl i img u H Hs Hset) as [Hlive Hrel].
      split; [| exact Hrel].
      specialize (Hb i img u H Hs).
      rewrite lookup_insert_ne by lia. exact Hlive.
    + cbn in Hs. injection Hs as <-. split.
      * rewrite lookup_insert_eq. eauto.
      * intros Hin. destruct (Hr _ Hin) as [_ Hlt]. lia.
  - intros u Hin. destruct (Hr u Hin) as [Hnone Hlt]. split; [| lia].
    rewrite lookup_insert_ne by lia. exact Hnone.
  - exact Hd.
  - apply paired_quiet; [reflexivity |].
    eapply paired_mono; [| exact Hp].
    intros i img Hi. exists img. split; [| reflexivity].
    apply lookup_app_l_Some, Hi.
Qed.

(** Settling an image keeps what it loads from and what its closure holds. *)
Lemma lookup_settled (imgs : list Image) (i : nat) bmp (j : nat) img' :
  alter (settle bmp) i imgs !! j = Some img' ->
  exists img, imgs !! j = Some img /\ src img' = src img /\
              onload img' = onload img /\
              (settled img' = false -> j <> i /\ settled img = false).
Proof.
  destruct (decide (i = j)) as [-> | Hne].
  - rewrite list_lookup_alter_eq. destruct (imgs !! j) as [img|]; [| discriminate].
    cbn. intros [= <-]. exists img. cbn. repeat split; discriminate.
  - rewrite list_lookup_alter_ne by exact Hne. intros H. exists img'.
    repeat split; [exact H | congruence | assumption].
Qed.

Lemma settled_lookup (imgs : list Image) (i : nat) bmp (j : nat) img :
  imgs !! j = Some img ->
  exists img', alter (settle bmp) i imgs !! j = Some img' /\ src img' = src img.
Proof.
  intros H. destruct (decide (i = j)) as [-> | Hne].
  - rewrite list_lookup_alter_eq, H. cbn. eauto.
  - rewrite list_lookup_alter_ne by exact Hne. eauto.
Qed.

Lemma media_inv_settle bmp i w :
  media_inv w -> media_inv (with_images (alter (settle bmp) i (images w)) w).
Proof.
  intros [Hc Hb Hj Hl Hr Hd Hp].
  split; cbn [images object_urls next_url log with_images].
  - intros j img' u (img & H & Hs & Ho & _)%lookup_settled. rewrite Hs, Ho. eauto.
  - intros j img' u (img & H & Hs & _)%lookup_settled. rewrite Hs. eauto.
  - intros j k a b u (a0 & Ha & Hsa & _)%lookup_settled
      (b0 & Hb0 & Hsb & _)%lookup_settled. rewrite Hsa, Hsb. eauto.
  - intros j img' u (img & H & Hs & _ & Hset)%lookup_settled Hs' Hset'.
    destruct (Hset Hset') as [_ Hset0]. rewrite Hs in Hs'. eauto.
  - exact Hr.
  - exact Hd.
  - eapply paired_mono; [| exact Hp]. intros j img H. apply settled_lookup, H.
Qed.

Lemma painted_images u i c w : images (painted u i c w) = images w.
Proof. unfold painted. destruct (images w !! i ≫= bitmap); reflexivity. Qed.

Lemma painted_urls u i c w :
  object_urls (painted u i c w) = delete u (object_urls w).
Proof. unfold painted. destruct (images w !! i ≫= bitmap); reflexivity. Qed.

Lemma painted_next u i c w : next_url (painted u i c w) = next_url w.
Proof. unfold painted. destruct (images w !! i ≫= bitmap); reflexivity. Qed.

Lemma painted_log u i c w :
  log (painted u i c w) =
  RevokeObjectURL u :: DrawImage i 0 0 (width c) (height c) :: log w.
Proof. unfold painted. destruct (images w !! i ≫= bitmap); reflexivity. Qed.

Lemma media_inv_paint bmp i img u c w :
  images w !! i = Some img -> settled img = false -> onload img = Some u ->
  media_inv w ->
  media_inv (painted u i c (with_images (alter (settle (Some bmp)) i (images w)) w)).
Proof.
  intros Hi Hset Ho [Hc Hb Hj Hl Hr Hd Hp].
  pose proof (Hc i img u Hi Ho) as Hsrc.
  destruct (Hl i img u Hi Hsrc Hset) as [Hlive Hfresh].
  split; rewrite ?painted_images, ?painted_urls, ?painted_next, ?painted_log;
    cbn [images object_urls next_url log with_images released_urls omap].
  - intros j img' u' (img0 & H & Hs & Ho' & _)%lookup_settled. rewrite Hs, Ho'. eauto.
  - intros j img' u' (img0 & H & Hs & _)%lookup_settled. rewrite Hs. eauto.
  - intros j k a b u' (a0 & Ha & Hsa & _)%lookup_settled
      (b0 & Hb0 & Hsb & _)%lookup_settled. rewrite Hsa, Hsb. eauto.
  - intros j img' u' (img0 & H & Hs & _ & Hst)%lookup_settled Hs' Hset'.
    destruct (Hst Hset') as [Hne Hset0]. rewrite Hs in Hs'.
    destruct (Hl j img0 u' H Hs' Hset0) as [Hlive' Hrel'].
    assert (u' <> u) by (intros ->; apply Hne; eauto).
    split.
    + rewrite lookup_delete_ne by congruence. exact Hlive'.
    + apply not_elem_of_cons. split; assumption.
  - intros u' [-> | Hin]%elem_of_cons.
    + split; [apply lookup_delete_eq | eauto].
    + destruct (Hr u' Hin) as [Hnone Hlt]. split; [| exact Hlt].
      apply lookup_delete_None. right. exact Hnone.
  - apply NoDup_cons. split; assumption.
  - destruct (settled_lookup (images w) i (Some bmp) i img Hi) as (img' & Hi' & Hs').
    eapply paired_paint; [exact Hi' | congruence |].
    eapply paired_mono; [| exact Hp]. intros j img0 H. apply settled_lookup, H.
Qed.

Lemma media_inv_step C dec w ev :
  is_App C -> media_inv w -> media_inv (step C dec w ev).
Proof.
  intros HC Hinv.
  destruct (step_media C dec w ev HC)
    as [Hs | data Hs | i img bmp Hi Hset Hs | i img u bmp c Hi Hset Ho Hv Hc Hs];
    apply (media_inv_same _ _ Hs).
  - exact Hinv.
  - apply media_inv_frame, Hinv.
  - apply media_inv_settle, Hinv.
  - eapply media_inv_paint; eassumption.
Qed.


Lemma media_inv_run C dec evs w :
  is_App C -> media_inv w -> media_inv (run C dec w evs).
Proof.
  intros HC. revert w. induction evs as [|ev evs IH]; intros w Hw; [exact Hw |].
  cbn. apply IH, media_inv_step; assumption.
Qed.

(** ** Paints, releases and leaks along a run *)

Lemma paired_split imgs l2 l1 i dx dy dw dh :
  paired imgs (l2 ++ DrawImage i dx dy dw dh :: l1) ->
  exists l2' img u,
    l2 = l2' ++ [RevokeObjectURL u] /\ imgs !! i = Some img /\ src img = Some u.
Proof.
  intros H. remember (l2 ++ DrawImage i dx dy dw dh :: l1) as l eqn:El.
  revert l2 El.
  induction H as [|e l He _ IH|u j img dx' dy' dw' dh' l Hj Hs _ IH]; intros l2 El.
  - destruct l2; discriminate.
  - destruct l2 as [|e' l2]; simplify_eq/=.
    destruct (IH l2 eq_refl) as (l2' & img & u & -> & Hi & Hs).
    exists (e' :: l2'), img, u. auto.
  - destruct l2 as [|e1 [|e2 l2]]; simplify_eq/=.
    + exists [], img, u. auto.
    + destruct (IH l2 eq_refl) as (l2' & img' & u' & -> & Hi & Hs').
      exists (RevokeObjectURL u :: DrawImage j dx' dy' dw' dh' :: l2'), img', u'. auto.
Qed.

Lemma released_app l1 l2 :
  released_urls (l1 ++ l2) = released_urls l1 ++ released_urls l2.
Proof. apply omap_app. Qed.

Lemma leaked_same u w w' : same_media w w' -> leaked u w -> leaked u w'.
Proof.
  intros [Hi Hu Hn Hl] [].
  split; rewrite ?Hi, ?Hu, ?Hn, ?(released_extends _ _ Hl); assumption.
Qed.

Lemma leaked_frame u data w : leaked u w -> leaked u (frame_received data w).
Proof.
  intros [Hlive Hb Hk Hd].
  split; cbn [frame_received images object_urls next_url log with_images emit
              with_object_urls released_urls omap].
  - rewrite lookup_insert_ne by lia. exact Hlive.
  - lia.
  - exact Hk.
  - intros j img [[_ H] | [_ <-]]%lookup_snoc_Some Ho; [eauto |].
    cbn in Ho. injection Ho as Ho. lia.
Qed.

Lemma leaked_settle u bmp i w :
  leaked u w -> leaked u (with_images (alter (settle bmp) i (images w)) w).
Proof.
  intros [Hlive Hb Hk Hd].
  split; cbn [images object_urls next_url log with_images]; try assumption.
  intros j img' (img & H & _ & Ho & Hset)%lookup_settled Ho'.
  destruct (settled img') eqn:E; [reflexivity |].
  destruct (Hset eq_refl) as [_ Hset0].
  rewrite Ho in Ho'. rewrite (Hd j img H Ho') in Hset0. discriminate.
Qed.

Lemma leaked_paint u bmp i img u' c w :
  images w !! i = Some img -> settled img = false -> onload img = Some u' ->
  leaked u w ->
  leaked u (painted u' i c (with_images (alter (settle (Some bmp)) i (images w)) w)).
Proof.
  intros Hi Hset Ho Hleak.
  assert (u' <> u) as Hne.
  { intros ->. destruct Hleak as [_ _ _ Hd].
    rewrite (Hd i img Hi Ho) in Hset. discriminate. }
  destruct (leaked_settle u (Some bmp) i w Hleak) as [Hlive Hb Hk Hd].
  split; rewrite ?painted_images, ?painted_urls, ?painted_next, ?painted_log;
    cbn [released_urls omap]; try assumption.
  - rewrite lookup_delete_ne by exact Hne. exact Hlive.
  - apply not_elem_of_cons. split; [congruence | exact Hk].
Qed.

Lemma leaked_step C dec u w ev :
  is_App C -> leaked u w -> leaked u (step C dec w ev).
Proof.
  intros HC Hleak.
  destruct (step_media C dec w ev HC)
    as [Hs | data Hs | i img bmp Hi Hset Hs | i img u' bmp c Hi Hset Ho Hv Hc Hs];
    apply (leaked_same _ _ _ Hs).
  - exact Hleak.
  - apply leaked_frame, Hleak.
  - apply leaked_settle, Hleak.
  - eapply leaked_paint; eassumption.
Qed.

Lemma leaked_run C dec u evs w :
  is_App C -> leaked u w -> leaked u (run C dec w evs).
Proof.
  intros HC. revert w. induction evs as [|ev evs IH]; intros w Hw; [exact Hw |].
  cbn. apply IH, leaked_step; assumption.
Qed.

(** A decode that ends while the canvas is gone, or has no 2D context,
    settles the image and changes nothing else. *)
Lemma settle_dropped C dec w i img :
  is_App C ->
  images w !! i = Some img -> settled img = false ->
  videoRef w = None \/ (exists c, videoRef w = Some c /\ context2d c = false) ->
  exists bmp,
    same_media (with_images (alter (settle bmp) i (images w)) w)
      (step C dec w (ImgSettled i)).
Proof.
  intros HC Hi Hset Hcanvas. cbn [step]. rewrite Hi, Hset.
  destruct (src img) as [u0|]; [| exists None; apply same_media_refl].
  destruct (fetching img ≫= dec) as [bmp|]; [| exists None; apply same_media_refl].
  exists (Some bmp).
  destruct (onload img) as [url|]; [| apply same_media_refl].
  rewrite (exec_onload C url i _ HC). cbn [videoRef with_images].
  destruct Hcanvas as [-> | (c & -> & ->)]; apply flush_same_media, HC.
Qed.

(** ** An image in flight is left alone until its load ends *)

Lemma ages_refl a : ages a a.
Proof. split; auto. Qed.

Lemma ages_trans a b c : ages a b -> ages b c -> ages a c.
Proof.
  intros [H1 H2] [H3 H4]. split.
  - intros Hc. pose proof (H3 Hc) as ->. auto.
  - auto.
Qed.

Lemma ages_settle (imgs : list Image) (i j : nat) bmp a :
  imgs !! i = Some a ->
  exists b, alter (settle bmp) j imgs !! i = Some b /\ ages a b.
Proof.
  intros H. destruct (decide (j = i)) as [-> | Hne].
  - rewrite list_lookup_alter_eq, H. cbn. eexists. split; [reflexivity |].
    split; [discriminate | reflexivity].
  - rewrite list_lookup_alter_ne by exact Hne. exists a. split; [exact H | apply ages_refl].
Qed.

Lemma image_persists_step C dec w ev i a :
  is_App C -> images w !! i = Some a ->
  exists b, images (step C dec w ev) !! i = Some b /\ ages a b.
Proof.
  intros HC Hi.
  destruct (step_media C dec w ev HC)
    as [Hs | data Hs | j img bmp Hj Hset Hs | j img u bmp c Hj Hset Ho Hv Hc Hs];
    destruct Hs as [-> _ _ _]; rewrite ?painted_images;
    cbn [frame_received images with_images].
  - exists a. split; [exact Hi | apply ages_refl].
  - exists a. split; [apply lookup_app_l_Some, Hi | apply ages_refl].
  - apply ages_settle, Hi.
  - apply ages_settle, Hi.
Qed.

Lemma image_persists_run C dec evs w i a :
  is_App C -> images w !! i = Some a ->
  exists b, images (run C dec w evs) !! i = Some b /\ ages a b.
Proof.
  intros HC. revert w a. induction evs as [|ev evs IH]; intros w a Hi; cbn.
  - exists a. split; [exact Hi | apply ages_refl].
  - destruct (image_persists_step C dec w ev i a HC Hi) as (b & Hb & Hab).
    destruct (IH _ _ Hb) as (c & Hc & Hbc).
    exists c. split; [exact Hc | eapply ages_trans; eassumption].
Qed.

Lemma deliver_frame C dec w id s bytes :
  is_App C ->
  sockets w !! id = Some s -> readyState s = OPEN -> onmessage s = true ->
  step C dec w (WsMessage id (PBinary bytes))
    = flush C (frame_received (PBinary bytes) w).
Proof.
  intros HC Hs Hr Ho. cbn [step]. rewrite Hs, Hr. unfold fire. rewrite Ho.
  f_equal. unfold exec.
  replace (comp_onmessage C (PBinary bytes))
    with (ClientApp.ws_onmessage (PBinary bytes))
    by (destruct HC as [-> | ->]; reflexivity).
  rewrite binary_branch. reflexivity.
Qed.

Lemma painted_videoRef u i c w img bmp :
  images w !! i = Some img -> bitmap img = Some bmp ->
  videoRef (painted u i c w)
    = Some (paint {| d_image := bmp; d_x := 0; d_y := 0;
                     d_w := width c; d_h := height c |} c).
Proof. intros Hi Hb. unfold painted. rewrite Hi. cbn. rewrite Hb. reflexivity. Qed.

(** ** [parseInt] on the wire protocol's texts *)

Lemma digit_not_space c : is_digit10 c = true -> is_white_space c = false.
Proof.
  unfold is_digit10. intros [H1%N.leb_le H2%N.leb_le]%andb_prop.
  unfold is_white_space.
  repeat (match goal with
          | |- context [(?a <=? ?b)%N] => destruct (N.leb_spec a b)
          | |- context [(?a =? ?b)%N] => destruct (N.eqb_spec a b)
          end; try lia).
  all: reflexivity.
Qed.

Lemma sign_not_space c :
  ((c =? 45) || (c =? 43))%N = true -> is_white_space c = false.
Proof.
  intros [->%N.eqb_eq | ->%N.eqb_eq]%orb_prop; reflexivity.
Qed.

Lemma digit_prefix_all ds : forallb is_digit10 ds = true -> digit_prefix ds = ds.
Proof.
  induction ds as [|c ds IH]; cbn; [reflexivity |].
  intros [-> H]%andb_prop. rewrite (IH H). reflexivity.
Qed.

Lemma math_int_fold ds acc :
  fold_left (fun acc c => (10 * acc + (c - 48))%N) ds acc
  = (acc * 10 ^ N.of_nat (length ds) + decimal_value ds)%N.
Proof.
  revert acc. induction ds as [|c ds IH]; intros acc; cbn [fold_left decimal_value length].
  - cbn. lia.
  - rewrite IH, Nat2N.inj_succ, N.pow_succ_r'. lia.
Qed.

Lemma math_int_decimal ds : math_int ds = decimal_value ds.
Proof. unfold math_int. rewrite math_int_fold. lia. Qed.

Lemma all_digits_parse neg ds :
  all_digits ds = true ->
  match digit_prefix ds with
  | [] => NaN
  | _ :: _ => to_number neg (math_int (digit_prefix ds))
  end = to_number neg (decimal_value ds).
Proof.
  unfold all_digits. intros [Hne Hd]%andb_prop.
  rewrite (digit_prefix_all ds Hd), math_int_decimal.
  destruct ds; [discriminate | reflexivity].
Qed.

(** On a valid integer string [parseInt] reads the whole string. *)
Lemma parseInt_integer_text s :
  is_integer_text s = true ->
  exists neg m,
    parseInt10 s = to_number neg m /\
    integer_value s = (if neg then - Z.of_N m else Z.of_N m)%Z.
Proof.
  destruct s as [|c ds]; [discriminate |].
  unfold is_integer_text, parseInt10, integer_value.
  destruct ((c =? 45) || (c =? 43))%N eqn:Hsign.
  - intros Hd. cbn [trim_start]. rewrite (sign_not_space c Hsign).
    destruct (c =? 45)%N eqn:Hminus.
    + exists true, (decimal_value ds). split; [apply all_digits_parse, Hd | reflexivity].
    + cbn in Hsign. rewrite Hsign.
      exists false, (decimal_value ds). split; [apply all_digits_parse, Hd | reflexivity].
  - intros Hd. apply orb_false_elim in Hsign as [Hminus Hplus].
    assert (Hc : is_digit10 c = true).
    { unfold all_digits in Hd. apply andb_prop in Hd as [_ Hd].
      cbn in Hd. apply andb_prop in Hd as [Hc _]. exact Hc. }
    cbn [trim_start]. rewrite (digit_not_space c Hc), Hminus, Hplus.
    exists false, (decimal_value (c :: ds)).
    split; [apply all_digits_parse, Hd | reflexivity].
Qed.

(** Doubles hold every integer up to 2^53 exactly. *)
Lemma round_exact m : (m <= 2 ^ 53)%N -> round_to_double m = Some m.
Proof.
  intros Hm. unfold round_to_double.
  destruct (m <? 2 ^ 53)%N eqn:Hlt; [reflexivity |].
  apply N.ltb_ge in Hlt. assert (m = 2 ^ 53)%N as -> by lia.
  vm_compute. reflexivity.
Qed.

Lemma to_number_exact neg m :
  (m <= 2 ^ 53)%N ->
  number_value (to_number neg m) = Some (if neg then - Z.of_N m else Z.of_N m)%Z.
Proof.
  intros Hm. unfold to_number. rewrite (round_exact m Hm).
  destruct neg; reflexivity.
Qed.

Lemma to_number_not_NaN neg m : to_number neg m <> NaN.
Proof. unfold to_number. destruct (round_to_double m); discriminate. Qed.

(** [parseInt] gives NaN exactly on the texts with no number to read. *)
Lemma parseInt_NaN s : parseInt10 s = NaN <-> lacks_number s = true.
Proof.
  unfold parseInt10, lacks_number.
  destruct (trim_start s) as [|c s']; [split; reflexivity |].
  assert (Hprefix : forall neg d t,
            match digit_prefix (d :: t) with
            | [] => NaN
            | _ :: _ => to_number neg (math_int (digit_prefix (d :: t)))
            end = NaN <-> negb (is_digit10 d) = true).
  { intros neg d t. cbn [digit_prefix].
    destruct (is_digit10 d); cbn; split; try reflexivity; try discriminate.
    intros H. exfalso. exact (to_number_not_NaN _ _ H). }
  destruct (c =? 45)%N eqn:Hminus; [| destruct (c =? 43)%N eqn:Hplus]; cbn [orb].
  - destruct s' as [|d t]; [split; reflexivity | apply Hprefix].
  - destruct s' as [|d t]; [split; reflexivity | apply Hprefix].
  - apply Hprefix.
Qed.

(** ** The face count and the screen of the face-count version *)

Lemma same_ui_refl w : same_ui w w.
Proof. split; reflexivity. Qed.

Lemma same_ui_trans w1 w2 w3 : same_ui w1 w2 -> same_ui w2 w3 -> same_ui w1 w3.
Proof. intros [] []. split; congruence. Qed.


Lemma flush_idle C w : needs_render w = false -> flush C w = w.
Proof. intros H. unfold flush. rewrite H. reflexivity. Qed.


Lemma faceCount_flush w : faceCount (flush FaceCountApp.App w) = faceCount w.
Proof.
  unfold flush. destruct (needs_render w); [| reflexivity].
  pose proof (rerender_face (with_faceCount (faceCount w) false w)) as Hre.
  set (w' := render_and_commit FaceCountApp.App None
               (with_faceCount (faceCount w) false w)) in *.
  clearbody w'. destruct Hre as [_ _ _ _ Hf _ _ _ _]. exact Hf.
Qed.




(** A render of the face-count version puts the cell on screen. *)
Lemma render_shows_cell w :
  displayed_count (render_and_commit FaceCountApp.App None w) = Some (faceCount w).
Proof.
  pose proof (rerender_face w) as Hre.
  set (w' := render_and_commit FaceCountApp.App None w) in *. clearbody w'.
  destruct Hre as [_ _ _ _ _ _ _ Hsc _]. unfold displayed_count. rewrite Hsc.
  reflexivity.
Qed.

(** The text branch of the handler, run on a mounted component: the cell
    holds the parse, and a render is pending if that changed it. *)
Lemma text_sets_cell text w :
  phase w = Mounted ->
  faceCount (exec (FaceCountApp.ws_onmessage (PText text)) w) = parseInt10 text.
Proof.
  intros Hp. unfold exec, FaceCountApp.ws_onmessage, setFaceCount, modify.
  rewrite Hp. unfold Object_is.
  destruct (bool_decide_reflect (faceCount w = parseInt10 text)); [assumption |].
  reflexivity.
Qed.

Lemma text_schedules_render text w :
  phase w = Mounted -> faceCount w <> parseInt10 text ->
  needs_render (exec (FaceCountApp.ws_onmessage (PText text)) w) = true.
Proof.
  intros Hp Hne. unfold exec, FaceCountApp.ws_onmessage, setFaceCount, modify.
  rewrite Hp. unfold Object_is.
  destruct (bool_decide_reflect (faceCount w = parseInt10 text)); [contradiction |].
  reflexivity.
Qed.

Lemma text_step_cell dec w id s text :
  phase w = Mounted ->
  sockets w !! id = Some s -> readyState s = OPEN -> onmessage s = true ->
  faceCount (step FaceCountApp.App dec w (WsMessage id (PText text)))
    = parseInt10 text.
Proof.
  intros Hp Hs Hr Ho. cbn [step]. rewrite Hs, Hr. unfold fire. rewrite Ho.
  rewrite faceCount_flush. cbn [comp_onmessage FaceCountApp.App].
  apply text_sets_cell, Hp.
Qed.

(** ** The frames-only version opens one socket per mount *)

Lemma same_opened_refl w : same_opened w w.
Proof. split; reflexivity. Qed.

Lemma same_opened_trans w1 w2 w3 :
  same_opened w1 w2 -> same_opened w2 w3 -> same_opened w1 w3.
Proof. intros [] []. split; congruence. Qed.

Lemma opened_effect ws w : same_opened w (exec (ClientApp.effect ws) w).
Proof. split; reflexivity. Qed.

Lemma opened_cleanup ws w : same_opened w (exec (ClientApp.cleanup ws) w).
Proof.
  unfold exec, ClientApp.cleanup, bind, get_readyState.
  destruct (sockets w !! ws) as [s|]; [| split; reflexivity].
  destruct (readyState s); split; reflexivity.
Qed.

Lemma opened_painted u i c w : same_opened w (painted u i c w).
Proof. unfold painted. destruct (images w !! i ≫= bitmap); split; reflexivity. Qed.

Lemma one_socket_same w w' : same_opened w w' -> one_socket w -> one_socket w'.
Proof. intros [Hn Hp Ho] [H1 H2]. split; [congruence |]. rewrite Ho, Hp. exact H2. Qed.

Lemma one_socket_fire b h w :
  (forall w0, same_opened w0 (exec h w0)) ->
  one_socket w -> one_socket (fire ClientApp.App b h w).
Proof.
  intros Hh Hw. unfold fire. destruct b; [| exact Hw].
  pose proof (one_socket_same _ _ (Hh w) Hw) as Hw'.
  rewrite flush_idle by apply Hw'. exact Hw'.
Qed.

(** The first render opens one socket. *)
Lemma opened_mount c w :
  same_opened (emit (NewWebSocket (length (sockets w))) w)
    (render_and_commit ClientApp.App (Some c) w).
Proof.
  unfold render_and_commit.
  cbn [comp_render comp_effect comp_cleanup ClientApp.App truthy].
  unfold ClientApp.App_render, bind, useRef_null, modify, new_WebSocket, ret.
  cbn beta iota.
  match goal with
  | |- same_opened _ (match effect_ws ?x with _ => _ end) => set (w1 := x)
  end.
  assert (H1 : same_opened (emit (NewWebSocket (length (sockets w))) w) w1)
    by (split; reflexivity).
  clearbody w1.
  destruct (effect_ws w1) as [old|];
    [match goal with
     | |- context [decide (old = ?x)] => destruct (decide (old = x))
     end |].
  - exact H1.
  - eapply same_opened_trans; [exact H1 |].
    eapply same_opened_trans; [apply (opened_cleanup old) |].
    eapply same_opened_trans;
      [apply (opened_effect (length (sockets w))) | split; reflexivity].
  - eapply same_opened_trans; [exact H1 |].
    eapply same_opened_trans;
      [apply (opened_effect (length (sockets w))) | split; reflexivity].
Qed.

Lemma one_socket_initial : one_socket initial_world.
Proof. split; reflexivity. Qed.

Lemma one_socket_step dec w ev :
  one_socket w -> one_socket (step ClientApp.App dec w ev).
Proof.
  intros Hw. pose proof Hw as [Hn Hcount].
  destruct ev as [canvas| |id|id data|id|id|img]; cbn [step].
  - (* Mount *)
    destruct (phase w) eqn:Hp; try exact Hw.
    pose proof (opened_mount canvas (with_phase Mounted w)) as Hre.
    set (w' := render_and_commit ClientApp.App (Some canvas)
                 (with_phase Mounted w)) in *.
    clearbody w'. destruct Hre as [Hn' Hp' Ho'].
    cbn [needs_render phase log emit with_phase] in Hn', Hp', Ho'.
    split; [congruence |]. rewrite Ho', Hp'.
    change (S (length (opened_sockets (log w))) = 1%nat).
    rewrite Hcount. reflexivity.
  - (* Unmount *)
    destruct (phase w) eqn:Hp; try exact Hw.
    unfold unmount. destruct (effect_ws w) as [ws|].
    + pose proof (opened_cleanup ws w) as Hre.
      cbn [comp_cleanup ClientApp.App].
      set (w' := exec (ClientApp.cleanup ws) w) in *.
      clearbody w'. destruct Hre as [Hn' Hp' Ho'].
      split; [cbn; congruence |].
      cbn [log phase with_screen with_videoRef with_phase].
      rewrite Ho', Hcount. reflexivity.
    + split; [exact Hn | exact Hcount].
  - (* WsOpened *)
    destruct (sockets w !! id) as [s|]; [| exact Hw].
    destruct (readyState s); try exact Hw.
    apply one_socket_fire; [intros w0; split; reflexivity |].
    apply (one_socket_same w); [split; reflexivity | exact Hw].
  - (* WsMessage *)
    destruct (sockets w !! id) as [s|]; [| exact Hw].
    destruct (readyState s); try exact Hw.
    apply one_socket_fire; [| exact Hw].
    intros w0. cbn [comp_onmessage ClientApp.App].
    rewrite exec_onmessage_client. split; reflexivity.
  - (* WsFailed *)
    destruct (sockets w !! id) as [s|]; [| exact Hw].
    assert (one_socket
              (fire ClientApp.App (onclose s) (comp_onclose ClientApp.App)
                 (set_state CLOSED id
                    (fire ClientApp.App (onerror s) (comp_onerror ClientApp.App) w)))).
    { apply one_socket_fire; [intros w0; split; reflexivity |].
      eapply one_socket_same; [split; reflexivity |].
      apply one_socket_fire; [intros w0; split; reflexivity | exact Hw]. }
    destruct (readyState s); assumption.
  - (* WsClosed *)
    destruct (sockets w !! id) as [s|]; [| exact Hw].
    assert (one_socket
              (fire ClientApp.App (onclose s) (comp_onclose ClientApp.App)
                 (set_state CLOSED id w))).
    { apply one_socket_fire; [intros w0; split; reflexivity |].
      eapply one_socket_same; [split; reflexivity | exact Hw]. }
    destruct (readyState s); assumption.
  - (* ImgSettled *)
    destruct (images w !! img) as [i|]; [| exact Hw].
    destruct (settled i); [exact Hw |].
    assert (Hs : forall bmp,
              one_socket (with_images (alter (settle bmp) img (images w)) w))
      by (intros bmp; apply (one_socket_same w); [split; reflexivity | exact Hw]).
    destruct (src i); [| apply Hs].
    destruct (fetching i ≫= dec) as [bmp|]; [| apply Hs].
    destruct (onload i) as [url|]; [| apply Hs].
    rewrite (exec_onload ClientApp.App url img _ (or_introl eq_refl)).
    cbn [videoRef with_images].
    set (w1 := with_images (alter (settle (Some bmp)) img (images w)) w).
    assert (Hs1 : one_socket
                    match videoRef w with
                    | Some c => if context2d c then painted url img c w1 else w1
                    | None => w1
                    end).
    { destruct (videoRef w) as [c|]; [destruct (context2d c) |]; try apply Hs.
      eapply one_socket_same; [apply opened_painted | apply Hs]. }
    rewrite flush_idle by apply Hs1. exact Hs1.
Qed.

(** X1: whatever happens, the frames-only version has opened no socket
    before it is mounted and exactly one from then on. *)
Lemma client_one_socket_per_mount dec evs :
  length (opened_sockets (log (run ClientApp.App dec initial_world evs)))
  = match phase (run ClientApp.App dec initial_world evs) with
    | Fresh => 0%nat
    | _ => 1%nat
    end.
Proof.
  assert (H : forall w, one_socket w -> one_socket (run ClientApp.App dec w evs)).
  { induction evs as [|ev evs IH]; intros w Hw; [exact Hw |].
    cbn. apply IH, one_socket_step, Hw. }
  apply (H _ one_socket_initial).
Qed.

(** * The claims *)

(** ** Dispatch of inbound messages *)

(** C2 (as amended): in the face-count version a message takes exactly one
    branch: a text only sets the face count to its parse (no blob, URL or
    image is created), a binary payload only starts the decode sequence
    (the face count is untouched); the frames-only version has no branch
    and starts the decode sequence for every payload, text included. *)
Theorem dispatch_one_branch :
  (forall text w,
     exists w1,
       FaceCountApp.ws_onmessage (PText text) w = Return tt w1 /\
       (phase w = Mounted -> faceCount w1 = parseInt10 text) /\
       images w1 = images w /\ object_urls w1 = object_urls w /\
       videoRef w1 = videoRef w /\ log w1 = log w) /\
  (forall bytes w,
     FaceCountApp.ws_onmessage (PBinary bytes) w
       = Return tt (frame_received (PBinary bytes) w) /\
     faceCount (frame_received (PBinary bytes) w) = faceCount w /\
     needs_render (frame_received (PBinary bytes) w) = needs_render w) /\
  (forall data w,
     ClientApp.ws_onmessage data w = Return tt (frame_received data w)).
Proof.
  split; [| split].
  - intros text w. eexists. split; [reflexivity |].
    unfold setFaceCount, modify. cbn beta.
    destruct (phase w); [repeat split; discriminate | | repeat split; discriminate].
    unfold Object_is.
    destruct (bool_decide_reflect (faceCount w = parseInt10 text));
      repeat split; auto.
  - intros bytes w. split; [apply face_binary_branch |]. split; reflexivity.
  - apply binary_branch.
Qed.

(** C2, as stated, fails on the frames-only version: the text "3" is not
    parsed into a face count; it is wrapped in a blob, given an object
    URL and handed to an image for decoding. *)
Lemma text_takes_image_branch :
  let w := run ClientApp.App example_decode initial_world
             [Mount example_canvas; WsOpened 0; WsMessage 0 (PText (js "3"))] in
  images w = [frame_image (PText (js "3")) 0] /\
  log w = [CreateObjectURL 0; ConsoleLog "WebSocket is connected."; NewWebSocket 0] /\
  faceCount w = Finite false 0 /\
  displayed_count w = None.
Proof. vm_compute. repeat split; reflexivity. Qed.

(** C9: on a binary message both versions run the same sequence, blob,
    object URL, image, [src], [onload]; and their [onload] closures are the
    same guarded paint and release. *)
Theorem versions_agree_on_frames :
  (forall bytes w,
     ClientApp.ws_onmessage (PBinary bytes) w
       = FaceCountApp.ws_onmessage (PBinary bytes) w /\
     ClientApp.ws_onmessage (PBinary bytes) w
       = Return tt (frame_received (PBinary bytes) w)) /\
  (forall url img w,
     ClientApp.img_onload url img w = FaceCountApp.img_onload url img w /\
     ClientApp.img_onload url img w
       = Return tt match videoRef w with
                   | Some c => if context2d c then painted url img c w else w
                   | None => w
                   end).
Proof.
  split.
  - intros bytes w. split; [reflexivity | apply binary_branch].
  - intros url img w. split; [reflexivity |].
    destruct (videoRef w) as [c|] eqn:Hv; [destruct (context2d c) eqn:Hc |].
    + apply (onload_paints _ _ _ _ Hv Hc).
    + apply (onload_no_context _ _ _ _ Hv Hc).
    + apply (onload_unmounted _ _ _ Hv).
Qed.

(** ** Painting *)

(** C6: when the decode of a frame completes and [videoRef.current] is
    null or [getContext('2d')] returns null, the [onload] closure returns
    normally and leaves the whole world as it was (no paint, no release,
    no exception), and the event as a whole only marks the image as
    settled: log, canvas, object URLs, face count and screen are the same. *)
Theorem missing_canvas_drops_frame C dec i img url w :
  is_App C ->
  needs_render w = false ->
  images w !! i = Some img -> settled img = false ->
  videoRef w = None \/ (exists c, videoRef w = Some c /\ context2d c = false) ->
  comp_onload C url i w = Return tt w /\
  exists bmp,
    step C dec w (ImgSettled i) = with_images (alter (settle bmp) i (images w)) w.
Proof.
  intros HC Hn Hi Hset Hcanvas. split.
  - replace (comp_onload C url i) with (ClientApp.img_onload url i)
      by (destruct HC as [-> | ->]; reflexivity).
    destruct Hcanvas as [Hv | (c & Hv & Hc)].
    + apply onload_unmounted, Hv.
    + apply (onload_no_context _ _ _ c Hv Hc).
  - cbn [step]. rewrite Hi, Hset.
    destruct (src img); [| exists None; reflexivity].
    destruct (fetching img ≫= dec) as [bmp|]; [| exists None; reflexivity].
    exists (Some bmp).
    destruct (onload img) as [u1|]; [| reflexivity].
    rewrite (exec_onload C u1 i _ HC). cbn [videoRef with_images].
    assert (Hw1 : forall w1 : World,
              match videoRef w with
              | Some c => if context2d c then painted u1 i c w1 else w1
              | None => w1
              end = w1).
    { intros w1. destruct Hcanvas as [-> | (c & -> & ->)]; reflexivity. }
    rewrite Hw1. unfold flush. cbn [needs_render with_images]. rewrite Hn.
    reflexivity.
Qed.

Lemma missing_canvas_drops_frame_witness :
  let w := run ClientApp.App example_decode initial_world
             [Mount example_canvas; WsOpened 0; WsMessage 0 example_frame; Unmount] in
  (is_App ClientApp.App /\ needs_render w = false /\
   images w !! 0%nat = Some (frame_image example_frame 0) /\
   settled (frame_image example_frame 0) = false /\ videoRef w = None) /\
  (comp_onload ClientApp.App 0%nat 0%nat w = Return tt w /\
   exists bmp,
     step ClientApp.App example_decode w (ImgSettled 0)
       = with_images (alter (settle bmp) 0%nat (images w)) w).
Proof.
  split.
  - repeat split; solve [left; reflexivity | reflexivity].
  - apply (missing_canvas_drops_frame ClientApp.App example_decode 0%nat
             (frame_image example_frame 0) 0%nat).
    + left; reflexivity.
    + reflexivity.
    + reflexivity.
    + reflexivity.
    + left; reflexivity.
Defined.

(** ** Object URLs *)

(** C7: along every run of either version, each paint is directly
    followed by the release of the object URL the painted image was loaded
    from (the log is newest first, so the release is the entry just before
    the paint); that URL is released exactly once in the whole run and is
    no longer registered. *)
Theorem painted_frame_released_once C dec evs l2 l1 i dx dy dw dh :
  is_App C ->
  log (run C dec initial_world evs) = l2 ++ DrawImage i dx dy dw dh :: l1 ->
  exists l2' img u,
    l2 = l2' ++ [RevokeObjectURL u] /\
    images (run C dec initial_world evs) !! i = Some img /\
    src img = Some u /\
    count_occ Nat.eq_dec (released_urls (log (run C dec initial_world evs))) u = 1%nat /\
    object_urls (run C dec initial_world evs) !! u = None.
Proof.
  intros HC Hlog.
  destruct (media_inv_run C dec evs initial_world HC media_inv_initial)
    as [_ _ _ _ Hr Hd Hp].
  rewrite Hlog in Hp.
  destruct (paired_split _ _ _ _ _ _ _ _ Hp) as (l2' & img & u & -> & Hi & Hs).
  exists l2', img, u. repeat split; try assumption.
  - assert (Hin : u ∈ released_urls (log (run C dec initial_world evs))).
    { rewrite Hlog, !released_app. cbn. rewrite !elem_of_app, elem_of_cons. auto. }
    apply NoDup_count_occ'; [apply NoDup_ListNoDup, Hd | apply list_elem_of_In, Hin].
  - apply Hr. rewrite Hlog, !released_app. cbn.
    rewrite !elem_of_app, elem_of_cons. auto.
Qed.

Lemma painted_frame_released_once_witness :
  let evs := [Mount example_canvas; WsOpened 0; WsMessage 0 example_frame;
              ImgSettled 0] in
  let w := run FaceCountApp.App example_decode initial_world evs in
  (is_App FaceCountApp.App /\
   log w = [RevokeObjectURL 0] ++ DrawImage 0 0 0 300 150
             :: [CreateObjectURL 0; ConsoleLog "WebSocket is connected.";
                 NewWebSocket 0]) /\
  exists l2' img u,
    [RevokeObjectURL 0] = l2' ++ [RevokeObjectURL u] /\
    images w !! 0%nat = Some img /\
    src img = Some u /\
    count_occ Nat.eq_dec (released_urls (log w)) u = 1%nat /\
    object_urls w !! u = None.
Proof.
  split.
  - split; [right; reflexivity | reflexivity].
  - apply (painted_frame_released_once FaceCountApp.App example_decode
             [Mount example_canvas; WsOpened 0; WsMessage 0 example_frame;
              ImgSettled 0]
             [RevokeObjectURL 0]
             [CreateObjectURL 0; ConsoleLog "WebSocket is connected.";
              NewWebSocket 0]
             0%nat 0 0 300 150).
    + right; reflexivity.
    + reflexivity.
Defined.

(** C10: if the decode of a frame ends while [videoRef.current] is null or
    no 2D context can be had, whether or not the component is mounted,
    the frame's object URL stays registered and is never released,
    whatever happens afterwards. *)
Theorem dropped_frame_never_released C dec evs i img u evs' :
  is_App C ->
  images (run C dec initial_world evs) !! i = Some img ->
  settled img = false -> src img = Some u ->
  videoRef (run C dec initial_world evs) = None \/
    (exists c, videoRef (run C dec initial_world evs) = Some c /\ context2d c = false) ->
  let w' := run C dec (step C dec (run C dec initial_world evs) (ImgSettled i)) evs' in
  is_Some (object_urls w' !! u) /\ u ∉ released_urls (log w').
Proof.
  intros HC Hi Hset Hsrc Hcanvas w'.
  set (w := run C dec initial_world evs) in *.
  assert (Hinv : media_inv w) by (apply media_inv_run; [exact HC | apply media_inv_initial]).
  assert (Hleak : leaked u (step C dec w (ImgSettled i))).
  { destruct (settle_dropped C dec w i img HC Hi Hset Hcanvas) as (bmp & Hsame).
    apply (leaked_same _ _ _ Hsame).
    destruct Hinv as [Hc Hb Hj Hl _ _ _].
    destruct (Hl i img u Hi Hsrc Hset) as [Hlive Hkept].
    split; cbn [images object_urls next_url log with_images].
    - exact Hlive.
    - eauto.
    - exact Hkept.
    - intros j img' (img0 & H0 & Hs0 & Ho0 & Hst)%lookup_settled Ho.
      destruct (settled img') eqn:E; [reflexivity |].
      destruct (Hst eq_refl) as [Hne _]. exfalso. apply Hne.
      rewrite Ho0 in Ho. apply (Hj j i img0 img u H0 Hi); [| exact Hsrc].
      apply (Hc j img0 u H0 Ho). }
  destruct (leaked_run C dec u evs' _ HC Hleak) as [Hlive _ Hkept _].
  split; assumption.
Qed.

Lemma dropped_frame_never_released_witness :
  let evs := [Mount contextless_canvas; WsOpened 0; WsMessage 0 example_frame] in
  let w := run ClientApp.App example_decode initial_world evs in
  (is_App ClientApp.App /\
   images w !! 0%nat = Some (frame_image example_frame 0) /\
   settled (frame_image example_frame 0) = false /\
   src (frame_image example_frame 0) = Some 0%nat /\
   phase w = Mounted /\
   videoRef w = Some contextless_canvas /\ context2d contextless_canvas = false) /\
  let w' := run ClientApp.App example_decode
              (step ClientApp.App example_decode w (ImgSettled 0))
              [WsMessage 0 example_frame; ImgSettled 1; Unmount] in
  is_Some (object_urls w' !! 0%nat) /\ 0%nat ∉ released_urls (log w').
Proof.
  split.
  - repeat split; solve [left; reflexivity | reflexivity].
  - apply (dropped_frame_never_released ClientApp.App example_decode
             [Mount contextless_canvas; WsOpened 0; WsMessage 0 example_frame]
             0%nat (frame_image example_frame 0) 0%nat).
    + left; reflexivity.
    + reflexivity.
    + reflexivity.
    + reflexivity.
    + right. exists contextless_canvas. split; reflexivity.
Defined.

(** C5 (as amended): for a binary message whose bytes decode to a picture,
    if the canvas is mounted and yields a 2D context when the decode
    completes, the picture is painted at (0,0) scaled to the canvas's
    current width and height: it becomes the top layer of the canvas and
    covers it. *)
Theorem decoded_frame_is_painted C dec evs id s bytes evs' bmp c :
  is_App C ->
  sockets (run C dec initial_world evs) !! id = Some s ->
  readyState s = OPEN -> onmessage s = true ->
  let i := length (images (run C dec initial_world evs)) in
  let w1 := run C dec
              (step C dec (run C dec initial_world evs) (WsMessage id (PBinary bytes)))
              evs' in
  settled <$> images w1 !! i = Some false ->
  dec {| blob_parts := [PBinary bytes]; blob_type := "image/jpeg" |} = Some bmp ->
  videoRef w1 = Some c -> context2d c = true ->
  videoRef (step C dec w1 (ImgSettled i))
    = Some (paint {| d_image := bmp; d_x := 0; d_y := 0;
                     d_w := width c; d_h := height c |} c).
Proof.
  intros HC Hs Hr Ho. cbv zeta.
  set (w0 := run C dec initial_world evs) in *.
  set (i := length (images w0)).
  set (w1 := run C dec (step C dec w0 (WsMessage id (PBinary bytes))) evs').
  intros Hflight Hdec Hv Hc.
  assert (Hnew : exists u, images (step C dec w0 (WsMessage id (PBinary bytes))) !! i
                           = Some (frame_image (PBinary bytes) u)).
  { rewrite (deliver_frame C dec w0 id s bytes HC Hs Hr Ho).
    destruct (flush_same_media C (frame_received (PBinary bytes) w0) HC) as [-> _ _ _].
    exists (next_url w0). cbn [frame_received images with_images].
    apply lookup_snoc_Some. right. split; reflexivity. }
  destruct Hnew as (u & Hnew).
  destruct (image_persists_run C dec evs' _ i _ HC Hnew) as (b & Hb & [Hsame _]).
  fold w1 in Hb. clearbody w1 i. rewrite Hb in Hflight. cbn in Hflight.
  injection Hflight as Hflight. rewrite (Hsame Hflight) in Hb. clear Hsame b Hflight.
  cbn [step]. rewrite Hb.
  cbn [frame_image settled src fetching onload mbind option_bind].
  rewrite Hdec. rewrite (exec_onload C u i _ HC), (flush_videoRef _ _ HC).
  cbn [videoRef with_images]. rewrite Hv, Hc.
  eapply painted_videoRef.
  - cbn [images with_images]. rewrite list_lookup_alter_eq, Hb. reflexivity.
  - reflexivity.
Qed.

Lemma decoded_frame_is_painted_witness :
  let evs := [Mount example_canvas; WsOpened 0] in
  let w0 := run FaceCountApp.App example_decode initial_world evs in
  let w1 := run FaceCountApp.App example_decode
              (step FaceCountApp.App example_decode w0 (WsMessage 0 example_frame))
              [WsMessage 0 (PText (js "2"))] in
  let bmp := {| natural_width := 3; natural_height := 1;
                pixels := [255; 216; 255]%N |} in
  (is_App FaceCountApp.App /\
   sockets w0 !! 0%nat
     = Some {| readyState := OPEN; onopen := true; onmessage := true;
               onclose := true; onerror := true |} /\
   settled <$> images w1 !! length (images w0) = Some false /\
   example_decode {| blob_parts := [example_frame]; blob_type := "image/jpeg" |}
     = Some bmp /\
   videoRef w1 = Some example_canvas /\ context2d example_canvas = true) /\
  videoRef (step FaceCountApp.App example_decode w1 (ImgSettled (length (images w0))))
    = Some (paint {| d_image := bmp; d_x := 0; d_y := 0; d_w := 300; d_h := 150 |}
              example_canvas).
Proof.
  split.
  - repeat split; solve [right; reflexivity | reflexivity].
  - apply (decoded_frame_is_painted FaceCountApp.App example_decode
             [Mount example_canvas; WsOpened 0] 0%nat
             {| readyState := OPEN; onopen := true; onmessage := true;
                onclose := true; onerror := true |}
             [255; 216; 255]%N [WsMessage 0 (PText (js "2"))]).
    + right; reflexivity.
    + reflexivity.
    + reflexivity.
    + reflexivity.
    + reflexivity.
    + reflexivity.
    + reflexivity.
    + reflexivity.
Defined.

(** C5, as stated, fails when the component is unmounted between the
    message and the end of the decode: the bytes decode to a picture, but
    nothing is painted (the log has no [DrawImage]) and the object URL
    stays registered. *)
Lemma decoded_frame_not_painted_after_unmount :
  let w := run FaceCountApp.App example_decode initial_world
             [Mount example_canvas; WsOpened 0; WsMessage 0 example_frame;
              Unmount; ImgSettled 0] in
  (images w !! 0%nat) ≫= bitmap
    = Some {| natural_width := 3; natural_height := 1; pixels := [255; 216; 255]%N |} /\
  log w = [WsClose 0; CreateObjectURL 0; ConsoleLog "WebSocket is connected.";
           NewWebSocket 0] /\
  videoRef w = None /\
  is_Some (object_urls w !! 0%nat).
Proof. vm_compute. repeat split; eauto. Qed.

(** ** The face count *)

(** C3 (as amended): when a mounted component receives a text that is a
    valid base-10 integer string whose value has magnitude at most 2^53,
    the handler stores that integer as the face count; if this changed the
    count a render is scheduled; and a render made while the count still
    holds that value (no later text message having replaced it) displays
    that integer. *)
Theorem integer_text_is_displayed dec w id s text :
  phase w = Mounted ->
  sockets w !! id = Some s -> readyState s = OPEN -> onmessage s = true ->
  is_integer_text text = true ->
  (Z.abs (integer_value text) <= 2 ^ 53)%Z ->
  let w' := step FaceCountApp.App dec w (WsMessage id (PText text)) in
  number_value (faceCount w') = Some (integer_value text) /\
  (faceCount w <> faceCount w' ->
   needs_render (exec (FaceCountApp.ws_onmessage (PText text)) w) = true) /\
  (forall w0, faceCount w0 = faceCount w' ->
     displayed_count (render_and_commit FaceCountApp.App None w0) ≫= number_value
     = Some (integer_value text)).
Proof.
  intros Hp Hs Hr Ho Htext Hsmall. cbv zeta.
  rewrite (text_step_cell dec w id s text Hp Hs Hr Ho).
  assert (number_value (parseInt10 text) = Some (integer_value text)) as Hnum.
  { destruct (parseInt_integer_text text Htext) as (neg & m & -> & Hv).
    rewrite Hv in *. apply to_number_exact. destruct neg; lia. }
  split; [exact Hnum |]. split.
  - intros Hne. apply text_schedules_render; assumption.
  - intros w0 Hw0. rewrite render_shows_cell, Hw0. exact Hnum.
Qed.

Lemma integer_text_is_displayed_witness :
  let w := run FaceCountApp.App example_decode initial_world
             [Mount example_canvas; WsOpened 0] in
  let s := {| readyState := OPEN; onopen := true; onmessage := true;
              onclose := true; onerror := true |} in
  let w' := step FaceCountApp.App example_decode w (WsMessage 0 (PText (js "3"))) in
  (phase w = Mounted /\ sockets w !! 0%nat = Some s /\
   readyState s = OPEN /\ onmessage s = true /\
   is_integer_text (js "3") = true /\
   (Z.abs (integer_value (js "3")) <= 2 ^ 53)%Z) /\
  number_value (faceCount w') = Some (integer_value (js "3")) /\
  (faceCount w <> faceCount w' ->
   needs_render (exec (FaceCountApp.ws_onmessage (PText (js "3"))) w) = true) /\
  (forall w0, faceCount w0 = faceCount w' ->
     displayed_count (render_and_commit FaceCountApp.App None w0) ≫= number_value
     = Some (integer_value (js "3"))).
Proof.
  split.
  - repeat split; try reflexivity. vm_compute. discriminate.
  - apply (integer_text_is_displayed example_decode
             (run FaceCountApp.App example_decode initial_world
                [Mount example_canvas; WsOpened 0]) 0%nat
             {| readyState := OPEN; onopen := true; onmessage := true;
                onclose := true; onerror := true |} (js "3")).
    + reflexivity.
    + reflexivity.
    + reflexivity.
    + reflexivity.
    + reflexivity.
    + vm_compute. discriminate.
Defined.

(** C3, as stated, fails beyond the integers a JavaScript number holds
    exactly: the valid integer string "9007199254740993" (2^53 + 1) is
    stored, and displayed, as 9007199254740992. *)
Lemma big_integer_text_is_rounded :
  let text := js "9007199254740993" in
  let w := run FaceCountApp.App example_decode initial_world
             [Mount example_canvas; WsOpened 0; WsMessage 0 (PText text)] in
  is_integer_text text = true /\
  integer_value text = 9007199254740993%Z /\
  faceCount w = Finite false 9007199254740992 /\
  displayed_count w = Some (Finite false 9007199254740992) /\
  displayed_count w ≫= number_value <> Some (integer_value text).
Proof. vm_compute. repeat split; try reflexivity. discriminate. Qed.

(** C4 (as amended): when a mounted component receives a text that, after
    leading white space and an optional sign, does not go on with a
    decimal digit (such as "abc" or the empty text), the handler returns
    normally and stores NaN as the face count; if this changed the count a
    render is scheduled; and a render made while the count is still NaN
    (no later text message having replaced it) displays NaN. *)
Theorem text_without_number_shows_NaN dec w id s text :
  phase w = Mounted ->
  sockets w !! id = Some s -> readyState s = OPEN -> onmessage s = true ->
  lacks_number text = true ->
  let w' := step FaceCountApp.App dec w (WsMessage id (PText text)) in
  (exists w1, FaceCountApp.ws_onmessage (PText text) w = Return tt w1) /\
  faceCount w' = NaN /\
  (faceCount w <> NaN ->
   needs_render (exec (FaceCountApp.ws_onmessage (PText text)) w) = true) /\
  (forall w0, faceCount w0 = NaN ->
     displayed_count (render_and_commit FaceCountApp.App None w0) = Some NaN).
Proof.
  intros Hp Hs Hr Ho Htext. cbv zeta.
  rewrite (text_step_cell dec w id s text Hp Hs Hr Ho).
  apply parseInt_NaN in Htext.
  split; [eexists; reflexivity |]. split; [exact Htext |]. split.
  - intros Hne. apply text_schedules_render; [assumption |].
    rewrite Htext. exact Hne.
  - intros w0 Hw0. rewrite render_shows_cell, Hw0. reflexivity.
Qed.

Lemma text_without_number_shows_NaN_witness :
  let w := run FaceCountApp.App example_decode initial_world
             [Mount example_canvas; WsOpened 0] in
  let s := {| readyState := OPEN; onopen := true; onmessage := true;
              onclose := true; onerror := true |} in
  let w' := step FaceCountApp.App example_decode w (WsMessage 0 (PText (js "abc"))) in
  (phase w = Mounted /\ sockets w !! 0%nat = Some s /\
   readyState s = OPEN /\ onmessage s = true /\
   lacks_number (js "abc") = true) /\
  (exists w1, FaceCountApp.ws_onmessage (PText (js "abc")) w = Return tt w1) /\
  faceCount w' = NaN /\
  (faceCount w <> NaN ->
   needs_render (exec (FaceCountApp.ws_onmessage (PText (js "abc"))) w) = true) /\
  (forall w0, faceCount w0 = NaN ->
     displayed_count (render_and_commit FaceCountApp.App None w0) = Some NaN).
Proof.
  split.
  - repeat split; reflexivity.
  - apply (text_without_number_shows_NaN example_decode
             (run FaceCountApp.App example_decode initial_world
                [Mount example_canvas; WsOpened 0]) 0%nat
             {| readyState := OPEN; onopen := true; onmessage := true;
                onclose := true; onerror := true |} (js "abc")).
    + reflexivity.
    + reflexivity.
    + reflexivity.
    + reflexivity.
    + reflexivity.
Defined.

(** C4, as stated, fails on a text that is no valid number but starts
    with digits: "12abc" is displayed as 12, not as NaN. *)
Lemma numeric_prefix_is_displayed :
  let text := js "12abc" in
  let w := run FaceCountApp.App example_decode initial_world
             [Mount example_canvas; WsOpened 0; WsMessage 0 (PText text)] in
  is_integer_text text = false /\
  faceCount w = Finite false 12 /\
  displayed_count w = Some (Finite false 12) /\
  displayed_count w <> Some NaN.
Proof. vm_compute. repeat split; try reflexivity. discriminate. Qed.




(** ** The connection *)

(** X2: on unmount, [close] is called on the effect's socket exactly when
    its [readyState] is OPEN; in every other state no [close] is issued. *)
Lemma unmount_closes_iff_open C dec w ws s :
  is_App C ->
  phase w = Mounted -> effect_ws w = Some ws -> sockets w !! ws = Some s ->
  closed_sockets (log (step C dec w Unmount))
  = match readyState s with
    | OPEN => ws :: closed_sockets (log w)
    | _ => closed_sockets (log w)
    end.
Proof.
  intros HC Hp He Hs. cbn [step]. rewrite Hp. unfold unmount. rewrite He.
  replace (comp_cleanup C ws) with (ClientApp.cleanup ws)
    by (destruct HC as [-> | ->]; reflexivity).
  unfold exec, ClientApp.cleanup, bind, get_readyState. rewrite Hs.
  destruct (readyState s); reflexivity.
Qed.

(** The frames-only version has no state to update: the same three events
    leave it with the one socket it opened on mount. *)
Lemma client_keeps_its_socket :
  let w := run ClientApp.App example_decode initial_world
             [Mount example_canvas; WsOpened 0; WsMessage 0 (PText (js "3"))] in
  opened_sockets (log w) = [0%nat] /\ closed_sockets (log w) = [].
Proof. vm_compute. split; reflexivity. Qed.

(** C1 fails on the face-count version: [new WebSocket] is in the function
    body, so the render that follows a change of the face count opens a
    second connection within the same mount, and the effect's cleanup
    closes the first one, which was open, although nothing was unmounted. *)
Theorem face_count_change_reopens_socket dec canvas :
  let w := run FaceCountApp.App dec initial_world
             [Mount canvas; WsOpened 0; WsMessage 0 (PText (js "3"))] in
  phase w = Mounted /\
  opened_sockets (log w) = [1%nat; 0%nat] /\
  closed_sockets (log w) = [0%nat] /\
  effect_ws w = Some 1%nat.
Proof. cbv zeta. repeat split; reflexivity. Qed.

(** * Further properties of the two versions *)

(** ** Object URLs and images *)

Lemma accounted_same w w' : same_media w w' -> urls_accounted w -> urls_accounted w'.
Proof.
  intros [Hi Hu Hn Hl] H u. rewrite Hu, Hn, (released_extends _ _ Hl). apply H.
Qed.

Lemma accounted_frame data w :
  media_inv w -> urls_accounted w -> urls_accounted (frame_received data w).
Proof.
  intros [_ _ _ _ Hr _ _] H u.
  cbn [frame_received images object_urls next_url log with_images emit
       with_object_urls released_urls omap].
  destruct (decide (u = next_url w)) as [-> | Hne].
  - rewrite lookup_insert_eq. split; [| eauto].
    intros _. split; [lia |]. intros Hin. destruct (Hr _ Hin). lia.
  - rewrite lookup_insert_ne by congruence. rewrite (H u).
    split; intros [Hlt Hrel]; (split; [lia | exact Hrel]).
Qed.

Lemma released_after_paint u i dx dy dw dh l :
  released_urls (RevokeObjectURL u :: DrawImage i dx dy dw dh :: l)
  = u :: released_urls l.
Proof. reflexivity. Qed.

Lemma accounted_paint u' i c w :
  urls_accounted w -> urls_accounted (painted u' i c w).
Proof.
  intros H u. rewrite painted_urls, painted_next, painted_log.
  rewrite released_after_paint, not_elem_of_cons.
  destruct (decide (u = u')) as [-> | Hne].
  - rewrite lookup_delete_eq. split.
    + intros [x Hx]. discriminate.
    + intros [_ [Hn _]]. contradiction.
  - rewrite lookup_delete_ne by congruence. rewrite (H u).
    split; [intros [? ?]; auto | intros [? [_ ?]]; auto].
Qed.

Lemma accounted_step C dec w ev :
  is_App C -> media_inv w -> urls_accounted w -> urls_accounted (step C dec w ev).
Proof.
  intros HC Hinv Hacc.
  destruct (step_media C dec w ev HC)
    as [Hs | data Hs | i img bmp Hi Hset Hs | i img u bmp c Hi Hset Ho Hv Hc Hs];
    apply (accounted_same _ _ Hs).
  - exact Hacc.
  - apply accounted_frame; assumption.
  - exact Hacc.
  - apply accounted_paint. exact Hacc.
Qed.

Lemma accounted_initial : urls_accounted initial_world.
Proof.
  intros u. cbn. rewrite lookup_empty. split.
  - intros [x Hx]. discriminate.
  - intros [Hlt _]. lia.
Qed.

Lemma accounted_run C dec evs w :
  is_App C -> media_inv w -> urls_accounted w -> urls_accounted (run C dec w evs).
Proof.
  intros HC. revert w. induction evs as [|ev evs IH]; intros w Hinv Hacc; [exact Hacc |].
  cbn. apply IH; [apply media_inv_step | apply accounted_step]; assumption.
Qed.

Lemma paired_release imgs l2 l1 u :
  paired imgs (l2 ++ RevokeObjectURL u :: l1) ->
  exists i dx dy dw dh l1' img,
    l1 = DrawImage i dx dy dw dh :: l1' /\ imgs !! i = Some img /\ src img = Some u.
Proof.
  intros H. remember (l2 ++ RevokeObjectURL u :: l1) as l eqn:El.
  revert l2 El.
  induction H as [|e l He _ IH|u' j img dx dy dw dh l Hj Hs _ IH]; intros l2 El.
  - destruct l2; discriminate.
  - destruct l2 as [|e' l2]; simplify_eq/=. apply (IH l2 eq_refl).
  - destruct l2 as [|e1 [|e2 l2]]; simplify_eq/=.
    + exists j, dx, dy, dw, dh, l, img. auto.
    + apply (IH l2 eq_refl).
Qed.

(** X8: in every run of either version an object URL is released only
    directly after a paint, and the painted image is the one loaded from
    that URL (the log is newest first: the paint is the entry just after
    the release). *)
Theorem release_follows_own_paint C dec evs l2 l1 u :
  is_App C ->
  log (run C dec initial_world evs) = l2 ++ RevokeObjectURL u :: l1 ->
  exists i dx dy dw dh l1' img,
    l1 = DrawImage i dx dy dw dh :: l1' /\
    images (run C dec initial_world evs) !! i = Some img /\
    src img = Some u.
Proof.
  intros HC Hlog.
  destruct (media_inv_run C dec evs initial_world HC media_inv_initial)
    as [_ _ _ _ _ _ Hp].
  rewrite Hlog in Hp. exact (paired_release _ _ _ _ Hp).
Qed.

Lemma release_follows_own_paint_witness :
  let evs := [Mount example_canvas; WsOpened 0; WsMessage 0 example_frame;
              WsMessage 0 example_frame; ImgSettled 1] in
  let w := run ClientApp.App example_decode initial_world evs in
  (is_App ClientApp.App /\
   log w = [] ++ RevokeObjectURL 1
             :: [DrawImage 1 0 0 300 150; CreateObjectURL 1; CreateObjectURL 0;
                 ConsoleLog "WebSocket is connected."; NewWebSocket 0]) /\
  exists i dx dy dw dh l1' img,
    [DrawImage 1 0 0 300 150; CreateObjectURL 1; CreateObjectURL 0;
     ConsoleLog "WebSocket is connected."; NewWebSocket 0]
      = DrawImage i dx dy dw dh :: l1' /\
    images w !! i = Some img /\ src img = Some 1%nat.
Proof.
  split.
  - split; [left; reflexivity | reflexivity].
  - apply (release_follows_own_paint ClientApp.App example_decode
             [Mount example_canvas; WsOpened 0; WsMessage 0 example_frame;
              WsMessage 0 example_frame; ImgSettled 1]
             [] _ 1%nat).
    + left; reflexivity.
    + reflexivity.
Defined.

Lemma paired_images_same w w' : same_media w w' -> images_paired w -> images_paired w'.
Proof. intros [Hi _ Hn _] [H1 H2]. split; rewrite ?Hi, ?Hn; assumption. Qed.

Lemma paired_images_frame data w :
  images_paired w -> images_paired (frame_received data w).
Proof.
  intros [H1 H2].
  split; cbn [frame_received images next_url with_images emit with_object_urls].
  - rewrite length_app. cbn. lia.
  - intros i img [[_ H] | [-> <-]]%lookup_snoc_Some; [eauto |].
    rewrite H1. cbn. eauto.
Qed.

Lemma paired_images_settle bmp j w :
  images_paired w -> images_paired (with_images (alter (settle bmp) j (images w)) w).
Proof.
  intros [H1 H2]. split; cbn [images next_url with_images].
  - rewrite length_alter. exact H1.
  - intros i img'. destruct (decide (j = i)) as [-> | Hne].
    + rewrite list_lookup_alter_eq. destruct (images w !! i) as [img|] eqn:Hi;
        [| discriminate].
      cbn. intros [= <-]. cbn. eauto.
    + rewrite list_lookup_alter_ne by exact Hne. eauto.
Qed.

Lemma paired_images_step C dec w ev :
  is_App C -> images_paired w -> images_paired (step C dec w ev).
Proof.
  intros HC Hp.
  destruct (step_media C dec w ev HC)
    as [Hs | data Hs | i img bmp Hi Hset Hs | i img u bmp c Hi Hset Ho Hv Hc Hs];
    apply (paired_images_same _ _ Hs).
  - exact Hp.
  - apply paired_images_frame, Hp.
  - apply paired_images_settle, Hp.
  - destruct (paired_images_settle (Some bmp) i w Hp) as [H1 H2].
    split; rewrite ?painted_images, ?painted_next; assumption.
Qed.

(** X12: in every run of either version, the k-th message that reaches
    the image path gets the k-th image and the k-th object URL: each image
    ever created loads from its own URL, its [onload] closure holds that
    same URL, and there are exactly as many images as URLs handed out. *)
Theorem each_image_owns_its_url C dec evs :
  is_App C ->
  length (images (run C dec initial_world evs))
    = next_url (run C dec initial_world evs) /\
  forall i img,
    images (run C dec initial_world evs) !! i = Some img ->
    src img = Some i /\ onload img = Some i /\ is_Some (fetching img).
Proof.
  intros HC.
  assert (H : forall w, images_paired w -> images_paired (run C dec w evs)).
  { induction evs as [|ev evs IH]; intros w Hw; [exact Hw |].
    cbn. apply IH, paired_images_step; assumption. }
  destruct (H initial_world) as [H1 H2].
  - split; [reflexivity |]. intros i img Hi. discriminate.
  - split; assumption.
Qed.

Lemma each_image_owns_its_url_witness :
  let w := run FaceCountApp.App example_decode initial_world
             [Mount example_canvas; WsOpened 0; WsMessage 0 example_frame;
              WsMessage 0 example_frame; ImgSettled 1] in
  is_App FaceCountApp.App /\
  length (images w) = next_url w /\
  forall i img,
    images w !! i = Some img ->
    src img = Some i /\ onload img = Some i /\ is_Some (fetching img).
Proof.
  split; [right; reflexivity |].
  apply (each_image_owns_its_url FaceCountApp.App example_decode
           [Mount example_canvas; WsOpened 0; WsMessage 0 example_frame;
            WsMessage 0 example_frame; ImgSettled 1]).
  right; reflexivity.
Defined.

Lemma paired_images_run C dec evs :
  is_App C -> images_paired (run C dec initial_world evs).
Proof.
  intros HC.
  assert (H : forall w, images_paired w -> images_paired (run C dec w evs)).
  { induction evs as [|ev evs IH]; intros w Hw; [exact Hw |].
    cbn. apply IH, paired_images_step; assumption. }
  apply H. split; [reflexivity |]. intros i img Hi. discriminate.
Qed.

(** When every image loads from the URL of its own index, the URLs
    released are the images painted. *)
Lemma released_are_drawn imgs l :
  (forall i img, imgs !! i = Some img -> src img = Some i) ->
  paired imgs l -> released_urls l = drawn_images l.
Proof.
  intros Hsrc H.
  induction H as [|e l He _ IH|u j img dx dy dw dh l Hj Hs _ IH].
  - reflexivity.
  - destruct e; try discriminate; exact IH.
  - cbn. rewrite (Hsrc j img Hj) in Hs. injection Hs as <-. f_equal. exact IH.
Qed.

(** X7: at any point of a run of either version, an object URL is still
    registered exactly when it is the source of an image (made for a
    received frame) that has not been painted: the only
    [revokeObjectURL] is the one in [onload], after [drawImage]. *)
Theorem registered_urls_are_unpainted_frames C dec evs u :
  is_App C ->
  is_Some (object_urls (run C dec initial_world evs) !! u) <->
  exists i img,
    images (run C dec initial_world evs) !! i = Some img /\
    src img = Some u /\
    i ∉ drawn_images (log (run C dec initial_world evs)).
Proof.
  intros HC.
  pose proof (accounted_run C dec evs initial_world HC media_inv_initial
                accounted_initial u) as Hacc.
  destruct (paired_images_run C dec evs HC) as [Hcount Himg].
  destruct (media_inv_run C dec evs initial_world HC media_inv_initial)
    as [_ _ _ _ _ _ Hp].
  assert (Hrel : released_urls (log (run C dec initial_world evs))
                 = drawn_images (log (run C dec initial_world evs))).
  { apply (released_are_drawn _ _ (fun i img Hi => proj1 (Himg i img Hi)) Hp). }
  rewrite Hacc, Hrel, <- Hcount. split.
  - intros [Hlt Hnot].
    destruct (lookup_lt_is_Some_2 _ u Hlt) as [img Hi].
    exists u, img. split; [exact Hi |]. split; [apply (Himg u img Hi) | exact Hnot].
  - intros (i & img & Hi & Hs & Hnot).
    destruct (Himg i img Hi) as [Hs' _]. rewrite Hs' in Hs. injection Hs as <-.
    split; [apply lookup_lt_is_Some_1; eauto | exact Hnot].
Qed.

Lemma registered_urls_are_unpainted_frames_witness :
  let w := run ClientApp.App example_decode initial_world
             [Mount example_canvas; WsOpened 0; WsMessage 0 example_frame;
              WsMessage 0 example_frame; ImgSettled 1] in
  is_App ClientApp.App /\
  (is_Some (object_urls w !! 0%nat) <->
   exists i img,
     images w !! i = Some img /\ src img = Some 0%nat /\
     i ∉ drawn_images (log w)) /\
  (is_Some (object_urls w !! 1%nat) <->
   exists i img,
     images w !! i = Some img /\ src img = Some 1%nat /\
     i ∉ drawn_images (log w)).
Proof.
  split; [left; reflexivity |]. split.
  - apply (registered_urls_are_unpainted_frames ClientApp.App example_decode
             [Mount example_canvas; WsOpened 0; WsMessage 0 example_frame;
              WsMessage 0 example_frame; ImgSettled 1] 0%nat).
    left; reflexivity.
  - apply (registered_urls_are_unpainted_frames ClientApp.App example_decode
             [Mount example_canvas; WsOpened 0; WsMessage 0 example_frame;
              WsMessage 0 example_frame; ImgSettled 1] 1%nat).
    left; reflexivity.
Defined.

(** A load that ends without a paint leaves the URL registered for good. *)
Lemma unpainted_url_leaks C dec w i img u bmp w1 evs' :
  is_App C -> media_inv w ->
  images w !! i = Some img -> settled img = false -> src img = Some u ->
  same_media (with_images (alter (settle bmp) i (images w)) w) w1 ->
  leaked u (run C dec w1 evs').
Proof.
  intros HC [Hc Hb Hj Hl _ _ _] Hi Hset Hsrc Hsame.
  apply leaked_run; [exact HC |]. apply (leaked_same _ _ _ Hsame).
  destruct (Hl i img u Hi Hsrc Hset) as [Hlive Hkept].
  split; cbn [images object_urls next_url log with_images].
  - exact Hlive.
  - eauto.
  - exact Hkept.
  - intros j img' (img0 & H0 & Hs0 & Ho0 & Hst)%lookup_settled Ho.
    destruct (settled img') eqn:E; [reflexivity |].
    destruct (Hst eq_refl) as [Hne _]. exfalso. apply Hne.
    rewrite Ho0 in Ho. apply (Hj j i img0 img u H0 Hi); [| exact Hsrc].
    apply (Hc j img0 u H0 Ho).
Qed.

(** X9: [img.onerror] is not assigned.  When the bytes behind an image do
    not decode, the end of its load changes nothing but the image itself
    (no paint, no log line, no exception), and the object URL made for it
    stays registered and is never released, whatever follows. *)
Theorem undecodable_payload_leaks C dec evs i img u evs' :
  is_App C ->
  images (run C dec initial_world evs) !! i = Some img ->
  settled img = false -> src img = Some u ->
  fetching img ≫= dec = None ->
  step C dec (run C dec initial_world evs) (ImgSettled i)
    = with_images
        (alter (settle None) i (images (run C dec initial_world evs)))
        (run C dec initial_world evs) /\
  let w' := run C dec (step C dec (run C dec initial_world evs) (ImgSettled i)) evs' in
  is_Some (object_urls w' !! u) /\ u ∉ released_urls (log w').
Proof.
  intros HC Hi Hset Hsrc Hdec.
  assert (Hstep : step C dec (run C dec initial_world evs) (ImgSettled i)
                  = with_images
                      (alter (settle None) i (images (run C dec initial_world evs)))
                      (run C dec initial_world evs)).
  { cbn [step]. rewrite Hi, Hset, Hsrc, Hdec. reflexivity. }
  split; [exact Hstep |]. cbv zeta.
  destruct (unpainted_url_leaks C dec (run C dec initial_world evs) i img u None
              (step C dec (run C dec initial_world evs) (ImgSettled i)) evs' HC)
    as [Hlive _ Hkept _]; try assumption.
  - apply media_inv_run; [exact HC | apply media_inv_initial].
  - rewrite Hstep. apply same_media_refl.
  - split; assumption.
Qed.

Lemma undecodable_payload_leaks_witness :
  let evs := [Mount example_canvas; WsOpened 0; WsMessage 0 (PText (js "3"))] in
  let w := run ClientApp.App example_decode initial_world evs in
  let img := frame_image (PText (js "3")) 0 in
  (is_App ClientApp.App /\ images w !! 0%nat = Some img /\
   settled img = false /\ src img = Some 0%nat /\
   fetching img ≫= example_decode = None) /\
  step ClientApp.App example_decode w (ImgSettled 0)
    = with_images (alter (settle None) 0%nat (images w)) w /\
  let w' := run ClientApp.App example_decode
              (step ClientApp.App example_decode w (ImgSettled 0))
              [WsMessage 0 example_frame; ImgSettled 1; Unmount] in
  is_Some (object_urls w' !! 0%nat) /\ 0%nat ∉ released_urls (log w').
Proof.
  split.
  - repeat split; solve [left; reflexivity | reflexivity].
  - apply (undecodable_payload_leaks ClientApp.App example_decode
             [Mount example_canvas; WsOpened 0; WsMessage 0 (PText (js "3"))]
             0%nat (frame_image (PText (js "3")) 0) 0%nat).
    + left; reflexivity.
    + reflexivity.
    + reflexivity.
    + reflexivity.
    + reflexivity.
Defined.

(** ** Sockets and their handlers *)

Lemma wiring_alter (f : WebSocket -> WebSocket) (i : nat) (l : list WebSocket) :
  (forall s, wiring (f s) = wiring s) ->
  wiring <$> alter f i l = wiring <$> l.
Proof.
  intros Hf. revert i. induction l as [|x l IH]; intros [|i]; cbn; try reflexivity.
  - rewrite Hf. reflexivity.
  - f_equal. apply IH.
Qed.

Lemma wiring_start_closing s : wiring (start_closing s) = wiring s.
Proof. unfold start_closing. destruct (readyState s); reflexivity. Qed.

Lemma wired_after_effect (ws : nat) (l : list WebSocket) :
  wiring <$> alter (assign Onerror) ws
               (alter (assign Onclose) ws
                  (alter (assign Onmessage) ws (alter (assign Onopen) ws l)))
  = alter (fun _ => fully_wired) ws (wiring <$> l).
Proof.
  revert ws. induction l as [|x l IH]; intros [|ws]; cbn; try reflexivity.
  f_equal. apply IH.
Qed.

Lemma wired_lookup (l : list WebSocket) (id : nat) s :
  wiring <$> l = replicate (length l) fully_wired ->
  l !! id = Some s ->
  onopen s = true /\ onmessage s = true /\ onclose s = true /\ onerror s = true.
Proof.
  intros Hw Hs.
  assert (H : (wiring <$> l) !! id = Some (wiring s))
    by (rewrite list_lookup_fmap, Hs; reflexivity).
  rewrite Hw in H. apply lookup_replicate in H as [H _].
  unfold wiring, fully_wired in H. injection H as -> -> -> ->. auto.
Qed.

Lemma same_net_refl w : same_net w w.
Proof. split; reflexivity. Qed.

Lemma same_net_trans w1 w2 w3 : same_net w1 w2 -> same_net w2 w3 -> same_net w1 w3.
Proof. intros [] []. split; congruence. Qed.

Lemma net_cleanup ws w : same_net w (exec (ClientApp.cleanup ws) w).
Proof.
  unfold exec, ClientApp.cleanup, bind, get_readyState.
  destruct (sockets w !! ws) as [s|]; [| split; reflexivity].
  destruct (readyState s); cbn; split; try reflexivity.
  cbn. apply wiring_alter, wiring_start_closing.
Qed.

Lemma net_set_state r id w : same_net w (set_state r id w).
Proof. split; try reflexivity. cbn. apply wiring_alter. reflexivity. Qed.

Lemma net_painted u i c w : same_net w (painted u i c w).
Proof. unfold painted. destruct (images w !! i ≫= bitmap); split; reflexivity. Qed.

Lemma sockets_inv_same w w' : same_net w w' -> sockets_inv w -> sockets_inv w'.
Proof.
  intros [Hw He Hp Hn] [H1 H2 H3 H4].
  assert (Hlen : length (sockets w') = length (sockets w)).
  { apply (f_equal length) in Hw. rewrite !length_fmap in Hw. exact Hw. }
  split; rewrite ?Hw, ?He, ?Hp, ?Hn, ?Hlen; assumption.
Qed.

(** What the socket handlers do, as world transformers. *)
Lemma exec_effect ws w :
  exec (ClientApp.effect ws) w
  = with_sockets
      (alter (assign Onerror) ws
         (alter (assign Onclose) ws
            (alter (assign Onmessage) ws (alter (assign Onopen) ws (sockets w))))) w.
Proof. reflexivity. Qed.

Lemma exec_cleanup ws w s :
  sockets w !! ws = Some s ->
  exec (ClientApp.cleanup ws) w
  = match readyState s with
    | OPEN => emit (WsClose ws) (with_sockets (alter start_closing ws (sockets w)) w)
    | _ => w
    end.
Proof.
  intros Hs. unfold exec, ClientApp.cleanup, bind, get_readyState. rewrite Hs.
  destruct (readyState s); reflexivity.
Qed.

Lemma alter_replicate_last {A} (f : A -> A) (n : nat) (x y : A) :
  alter f n (replicate n x ++ [y]) = replicate n x ++ [f y].
Proof. induction n as [|n IH]; cbn; [reflexivity | f_equal; exact IH]. Qed.

Lemma replicate_snoc {A} (n : nat) (x : A) :
  replicate n x ++ [x] = replicate (S n) x.
Proof. induction n as [|n IH]; cbn; [reflexivity | f_equal; exact IH]. Qed.

Lemma wired_sockets_after_effect (l : list WebSocket) :
  wiring <$> l = replicate (length l) fully_wired ->
  forall l', wiring <$> l' = wiring <$> (l ++ [fresh_socket]) ->
  wiring <$> alter (assign Onerror) (length l)
               (alter (assign Onclose) (length l)
                  (alter (assign Onmessage) (length l)
                     (alter (assign Onopen) (length l) l')))
  = replicate (S (length l)) fully_wired.
Proof.
  intros Hw l' Hl'. rewrite wired_after_effect, Hl', fmap_app, Hw. cbn [fmap list_fmap].
  rewrite alter_replicate_last. apply replicate_snoc.
Qed.

(** A render of either version, in a world whose sockets are wired:
    it adds one wired socket, which the effect now holds, and the calls
    [render_calls]. *)
Lemma render_wires C attach w :
  is_App C ->
  wiring <$> sockets w = replicate (length (sockets w)) fully_wired ->
  (forall ws, effect_ws w = Some ws -> (ws < length (sockets w))%nat) ->
  wiring <$> sockets (render_and_commit C attach w)
    = replicate (S (length (sockets w))) fully_wired /\
  effect_ws (render_and_commit C attach w) = Some (length (sockets w)) /\
  phase (render_and_commit C attach w) = phase w /\
  needs_render (render_and_commit C attach w) = needs_render w /\
  log (render_and_commit C attach w) = render_calls w ++ log w.
Proof.
  intros HC Hw He. unfold render_and_commit, render_calls.
  destruct HC as [-> | ->], attach as [c|];
    cbn [comp_render comp_effect comp_cleanup ClientApp.App FaceCountApp.App truthy];
    unfold ClientApp.App_render, FaceCountApp.App_render, bind, useRef_null,
      useState, modify, new_WebSocket, ret;
    cbn beta iota;
    cbn [effect_ws sockets with_screen with_videoRef emit with_sockets with_faceCount];
    change FaceCountApp.cleanup with ClientApp.cleanup;
    change FaceCountApp.effect with ClientApp.effect.
  all: destruct (effect_ws w) as [old|] eqn:Heff.
  all: try (destruct (decide (old = length (sockets w))) as [Heq | Hne];
            [specialize (He old eq_refl); lia |]).
  all: try (specialize (He old eq_refl);
            destruct (lookup_lt_is_Some_2 (sockets w) old He) as [so Hso];
            erewrite exec_cleanup
              by (cbn [sockets with_screen with_videoRef emit with_sockets
                       with_faceCount];
                  apply lookup_app_l_Some, Hso);
            rewrite Hso; cbn [fmap option_fmap option_map];
            destruct (readyState so)).
  all: rewrite exec_effect.
  all: cbn [sockets effect_ws phase needs_render log with_screen with_videoRef emit
            with_sockets with_faceCount with_effect_ws].
  all: split; [apply wired_sockets_after_effect; [exact Hw |];
               rewrite ?(wiring_alter start_closing) by apply wiring_start_closing;
               reflexivity |].
  all: repeat split; reflexivity.
Qed.

(** A render of either version, in any world whose effect holds an
    existing socket (or none): it adds one socket, wires it, hands it to
    the effect, and makes the calls [render_calls]. *)
Lemma render_reconnects C attach w :
  is_App C ->
  (forall ws, effect_ws w = Some ws -> (ws < length (sockets w))%nat) ->
  log (render_and_commit C attach w) = render_calls w ++ log w /\
  effect_ws (render_and_commit C attach w) = Some (length (sockets w)) /\
  length (sockets (render_and_commit C attach w)) = S (length (sockets w)) /\
  sockets (render_and_commit C attach w) !! length (sockets w)
    = Some {| readyState := CONNECTING; onopen := true; onmessage := true;
              onclose := true; onerror := true |}.
Proof.
  intros HC He. unfold render_and_commit, render_calls.
  destruct HC as [-> | ->], attach as [c|];
    cbn [comp_render comp_effect comp_cleanup ClientApp.App FaceCountApp.App truthy];
    unfold ClientApp.App_render, FaceCountApp.App_render, bind, useRef_null,
      useState, modify, new_WebSocket, ret;
    cbn beta iota;
    cbn [effect_ws sockets with_screen with_videoRef emit with_sockets with_faceCount];
    change FaceCountApp.cleanup with ClientApp.cleanup;
    change FaceCountApp.effect with ClientApp.effect.
  all: destruct (effect_ws w) as [old|] eqn:Heff.
  all: try (destruct (decide (old = length (sockets w))) as [Heq | Hne];
            [specialize (He old eq_refl); lia |]).
  all: try (specialize (He old eq_refl);
            destruct (lookup_lt_is_Some_2 (sockets w) old He) as [so Hso];
            erewrite exec_cleanup
              by (cbn [sockets with_screen with_videoRef emit with_sockets
                       with_faceCount];
                  apply lookup_app_l_Some, Hso);
            rewrite Hso; cbn [fmap option_fmap option_map];
            destruct (readyState so)).
  all: rewrite exec_effect.
  all: cbn [sockets effect_ws phase needs_render log with_screen with_videoRef emit
            with_sockets with_faceCount with_effect_ws].
  all: split; [reflexivity |]; split; [reflexivity |]; split.
  all: rewrite ?length_alter, ?length_app; try (cbn [length]; lia).
  all: rewrite !list_lookup_alter_eq.
  all: rewrite ?list_lookup_alter_ne by exact Hne.
  all: rewrite (list_lookup_middle _ [] fresh_socket _ eq_refl); reflexivity.
Qed.

Lemma sockets_inv_initial : sockets_inv initial_world.
Proof. split; cbn; try reflexivity; intros; discriminate. Qed.

Lemma sockets_inv_fire C b h w :
  (forall w0, same_net w0 (exec h w0)) ->
  sockets_inv w -> sockets_inv (fire C b h w).
Proof.
  intros Hh Hw. unfold fire. destruct b; [| exact Hw].
  pose proof (sockets_inv_same _ _ (Hh w) Hw) as Hw'.
  rewrite flush_idle by apply Hw'. exact Hw'.
Qed.

Lemma sockets_inv_render C attach w :
  is_App C ->
  wiring <$> sockets w = replicate (length (sockets w)) fully_wired ->
  (forall ws, effect_ws w = Some ws -> (ws < length (sockets w))%nat) ->
  needs_render w = false ->
  sockets_inv (render_and_commit C attach w).
Proof.
  intros HC Hw He Hn.
  destruct (render_wires C attach w HC Hw He) as (H1 & H2 & H3 & H4 & _).
  assert (Hlen : length (sockets (render_and_commit C attach w))
                 = S (length (sockets w))).
  { apply (f_equal length) in H1.
    rewrite length_fmap, length_replicate in H1. exact H1. }
  split.
  - rewrite Hlen. exact H1.
  - intros ws Hws. rewrite H2 in Hws. injection Hws as <-. lia.
  - intros _. rewrite H2. eauto.
  - congruence.
Qed.

Lemma net_handlers C :
  is_App C ->
  (forall w, same_net w (exec (comp_onopen C) w)) /\
  (forall w, same_net w (exec (comp_onclose C) w)) /\
  (forall w, same_net w (exec (comp_onerror C) w)) /\
  (forall ws w, same_net w (exec (comp_cleanup C ws) w)).
Proof.
  intros [-> | ->]; repeat split; try reflexivity; apply net_cleanup.
Qed.

Lemma sockets_inv_step C dec w ev :
  is_App C -> sockets_inv w -> sockets_inv (step C dec w ev).
Proof.
  intros HC Hw. pose proof Hw as [Hwired Heff Hmounted Hidle].
  destruct (net_handlers C HC) as (Hopen & Hclose & Herror & Hcleanup).
  destruct ev as [canvas| |id|id data|id|id|img]; cbn [step].
  - (* Mount *)
    destruct (phase w); try exact Hw.
    apply sockets_inv_render; assumption.
  - (* Unmount *)
    destruct (phase w); try exact Hw. unfold unmount.
    assert (H : sockets_inv
                  match effect_ws w with
                  | Some ws => exec (comp_cleanup C ws) w
                  | None => w
                  end).
    { destruct (effect_ws w) as [ws|]; [| exact Hw].
      apply (sockets_inv_same w); [apply Hcleanup | exact Hw]. }
    destruct H as [H1 H2 _ H4]. split; try assumption. discriminate.
  - (* WsOpened *)
    destruct (sockets w !! id) as [s|]; [| exact Hw].
    destruct (readyState s); try exact Hw.
    apply sockets_inv_fire; [exact Hopen |].
    apply (sockets_inv_same w); [apply net_set_state | exact Hw].
  - (* WsMessage *)
    destruct (sockets w !! id) as [s|]; [| exact Hw].
    destruct (readyState s); try exact Hw.
    unfold fire. destruct (onmessage s); [| exact Hw].
    assert (Hframe : sockets_inv (flush C (frame_received data w))).
    { rewrite flush_idle by exact Hidle.
      apply (sockets_inv_same w); [split; reflexivity | exact Hw]. }
    destruct HC as [-> | ->]; cbn [comp_onmessage ClientApp.App FaceCountApp.App].
    + rewrite exec_onmessage_client. exact Hframe.
    + destruct data as [text|bytes].
      * unfold FaceCountApp.ws_onmessage, exec, setFaceCount, modify.
        destruct (phase w); try (rewrite flush_idle by exact Hidle; exact Hw).
        destruct (Object_is (faceCount w) (parseInt10 text));
          [rewrite flush_idle by exact Hidle; exact Hw |].
        unfold flush. cbn [needs_render with_faceCount faceCount].
        apply sockets_inv_render; [right; reflexivity | assumption ..| reflexivity].
      * change (FaceCountApp.ws_onmessage (PBinary bytes))
          with (ClientApp.ws_onmessage (PBinary bytes)).
        rewrite exec_onmessage_client. exact Hframe.
  - (* WsFailed *)
    destruct (sockets w !! id) as [s|]; [| exact Hw].
    assert (sockets_inv
              (fire C (onclose s) (comp_onclose C)
                 (set_state CLOSED id (fire C (onerror s) (comp_onerror C) w)))).
    { apply sockets_inv_fire; [exact Hclose |].
      eapply sockets_inv_same; [apply net_set_state |].
      apply sockets_inv_fire; [exact Herror | exact Hw]. }
    destruct (readyState s); assumption.
  - (* WsClosed *)
    destruct (sockets w !! id) as [s|]; [| exact Hw].
    assert (sockets_inv
              (fire C (onclose s) (comp_onclose C) (set_state CLOSED id w))).
    { apply sockets_inv_fire; [exact Hclose |].
      eapply sockets_inv_same; [apply net_set_state | exact Hw]. }
    destruct (readyState s); assumption.
  - (* ImgSettled *)
    destruct (images w !! img) as [i|]; [| exact Hw].
    destruct (settled i); [exact Hw |].
    assert (Hs : forall bmp,
              sockets_inv (with_images (alter (settle bmp) img (images w)) w))
      by (intros bmp; apply (sockets_inv_same w); [split; reflexivity | exact Hw]).
    destruct (src i); [| apply Hs].
    destruct (fetching i ≫= dec) as [bmp|]; [| apply Hs].
    destruct (onload i) as [url|]; [| apply Hs].
    rewrite (exec_onload C url img _ HC). cbn [videoRef with_images].
    set (w1 := with_images (alter (settle (Some bmp)) img (images w)) w).
    assert (Hs1 : sockets_inv
                    match videoRef w with
                    | Some c => if context2d c then painted url img c w1 else w1
                    | None => w1
                    end).
    { destruct (videoRef w) as [c|]; [destruct (context2d c) |]; try apply Hs.
      eapply sockets_inv_same; [apply net_painted | apply Hs]. }
    rewrite flush_idle by apply Hs1. exact Hs1.
Qed.

Lemma sockets_inv_run C dec evs :
  is_App C -> sockets_inv (run C dec initial_world evs).
Proof.
  intros HC.
  assert (H : forall w, sockets_inv w -> sockets_inv (run C dec w evs)).
  { induction evs as [|ev evs IH]; intros w Hw; [exact Hw |].
    cbn. apply IH, sockets_inv_step; assumption. }
  apply H, sockets_inv_initial.
Qed.

(** The effect of a run holds an existing socket. *)
Lemma effect_socket_exists C dec evs ws :
  is_App C -> effect_ws (run C dec initial_world evs) = Some ws ->
  exists s, sockets (run C dec initial_world evs) !! ws = Some s /\
            wiring s = fully_wired.
Proof.
  intros HC Hws. destruct (sockets_inv_run C dec evs HC) as [Hw He _ _].
  destruct (lookup_lt_is_Some_2 _ ws (He ws Hws)) as [s Hs].
  exists s. split; [exact Hs |].
  destruct (wired_lookup _ _ _ Hw Hs) as (H1 & H2 & H3 & H4).
  unfold wiring, fully_wired. rewrite H1, H2, H3, H4. reflexivity.
Qed.

(** X3: the socket the effect holds has all four handlers.  A committed
    render of either version, in any world whose effect holds an existing
    socket or none, creates one socket in state CONNECTING, assigns its
    [onopen], [onmessage], [onclose] and [onerror] and hands it to the
    effect; hence at any point of a run the socket the effect holds
    exists and has its four handlers. *)
Theorem effect_socket_is_wired C :
  is_App C ->
  (forall attach w,
     (forall ws, effect_ws w = Some ws -> (ws < length (sockets w))%nat) ->
     let w' := render_and_commit C attach w in
     effect_ws w' = Some (length (sockets w)) /\
     sockets w' !! length (sockets w)
       = Some {| readyState := CONNECTING; onopen := true; onmessage := true;
                 onclose := true; onerror := true |}) /\
  (forall dec evs ws,
     effect_ws (run C dec initial_world evs) = Some ws ->
     exists s,
       sockets (run C dec initial_world evs) !! ws = Some s /\
       onopen s = true /\ onmessage s = true /\
       onclose s = true /\ onerror s = true).
Proof.
  intros HC. split.
  - intros attach w He. cbv zeta.
    destruct (render_reconnects C attach w HC He) as (_ & H2 & _ & H4). auto.
  - intros dec evs ws Hws.
    destruct (effect_socket_exists C dec evs ws HC Hws) as (s & Hs & Hw).
    exists s. split; [exact Hs |].
    unfold wiring, fully_wired in Hw. injection Hw as -> -> -> ->. auto.
Qed.

Lemma effect_socket_is_wired_witness :
  let w := run FaceCountApp.App example_decode initial_world
             [Mount example_canvas; WsOpened 0] in
  let w' := render_and_commit FaceCountApp.App None w in
  let evs := [Mount example_canvas; WsOpened 0; WsMessage 0 (PText (js "3"))] in
  is_App FaceCountApp.App /\
  ((forall ws, effect_ws w = Some ws -> (ws < length (sockets w))%nat) /\
   effect_ws w' = Some (length (sockets w)) /\
   sockets w' !! length (sockets w)
     = Some {| readyState := CONNECTING; onopen := true; onmessage := true;
               onclose := true; onerror := true |}) /\
  (effect_ws (run FaceCountApp.App example_decode initial_world evs) = Some 1%nat /\
   exists s,
     sockets (run FaceCountApp.App example_decode initial_world evs) !! 1%nat
       = Some s /\
     onopen s = true /\ onmessage s = true /\
     onclose s = true /\ onerror s = true).
Proof.
  assert (Hbound : forall ws,
            effect_ws (run FaceCountApp.App example_decode initial_world
                         [Mount example_canvas; WsOpened 0]) = Some ws ->
            (ws < length (sockets (run FaceCountApp.App example_decode initial_world
                                     [Mount example_canvas; WsOpened 0])))%nat).
  { intros ws H. vm_compute in H. injection H as <-. vm_compute. lia. }
  split; [right; reflexivity |]. split.
  - split; [exact Hbound |].
    apply (proj1 (effect_socket_is_wired FaceCountApp.App (or_intror eq_refl))
             None
             (run FaceCountApp.App example_decode initial_world
                [Mount example_canvas; WsOpened 0])).
    exact Hbound.
  - split; [reflexivity |].
    apply (proj2 (effect_socket_is_wired FaceCountApp.App (or_intror eq_refl))
             example_decode
             [Mount example_canvas; WsOpened 0; WsMessage 0 (PText (js "3"))]
             1%nat).
    reflexivity.
Defined.

(** X4: in the face-count version a change of the face count makes the
    component reconnect.  A text message handled by the mounted component
    whose parse differs from the current count schedules a render; and
    every committed re-render, in any world whose effect holds a socket,
    opens one new socket, moves the effect to it, and calls [close] on
    the socket the effect held exactly when that one is open. *)
Theorem count_change_reconnects :
  (forall text w,
     phase w = Mounted -> parseInt10 text <> faceCount w ->
     needs_render (exec (FaceCountApp.ws_onmessage (PText text)) w) = true) /\
  (forall w old so,
     effect_ws w = Some old -> sockets w !! old = Some so ->
     let w' := render_and_commit FaceCountApp.App None w in
     log w' = render_calls w ++ log w /\
     effect_ws w' = Some (length (sockets w)) /\
     length (sockets w') = S (length (sockets w)) /\
     opened_sockets (log w') = length (sockets w) :: opened_sockets (log w) /\
     closed_sockets (log w')
       = match readyState so with
         | OPEN => old :: closed_sockets (log w)
         | _ => closed_sockets (log w)
         end).
Proof.
  split.
  - intros text w Hp Hne. apply text_schedules_render; [exact Hp | congruence].
  - intros w old so Hold Hso. cbv zeta.
    destruct (render_reconnects FaceCountApp.App None w (or_intror eq_refl))
      as (H1 & H2 & H3 & _).
    { intros ws Hws. rewrite Hold in Hws. injection Hws as <-.
      apply lookup_lt_is_Some_1. eauto. }
    split; [exact H1 |]. split; [exact H2 |]. split; [exact H3 |].
    rewrite H1. unfold render_calls. rewrite Hold, Hso.
    cbn [fmap option_fmap option_map].
    split; destruct (readyState so); reflexivity.
Qed.

Lemma count_change_reconnects_witness :
  let w := run FaceCountApp.App example_decode initial_world
             [Mount example_canvas; WsOpened 0] in
  let s := {| readyState := OPEN; onopen := true; onmessage := true;
              onclose := true; onerror := true |} in
  let w1 := exec (FaceCountApp.ws_onmessage (PText (js "2"))) w in
  let w' := render_and_commit FaceCountApp.App None w1 in
  ((phase w = Mounted /\ parseInt10 (js "2") <> faceCount w) /\
   needs_render w1 = true) /\
  (effect_ws w1 = Some 0%nat /\ sockets w1 !! 0%nat = Some s) /\
  log w' = render_calls w1 ++ log w1 /\
  effect_ws w' = Some (length (sockets w1)) /\
  length (sockets w') = S (length (sockets w1)) /\
  opened_sockets (log w') = length (sockets w1) :: opened_sockets (log w1) /\
  closed_sockets (log w') = 0%nat :: closed_sockets (log w1).
Proof.
  split; [| split].
  - split; [split; [reflexivity | vm_compute; discriminate] |].
    apply (proj1 count_change_reconnects (js "2")
             (run FaceCountApp.App example_decode initial_world
                [Mount example_canvas; WsOpened 0])).
    + reflexivity.
    + vm_compute. discriminate.
  - split; reflexivity.
  - apply (proj2 count_change_reconnects
             (exec (FaceCountApp.ws_onmessage (PText (js "2")))
                (run FaceCountApp.App example_decode initial_world
                   [Mount example_canvas; WsOpened 0]))
             0%nat
             {| readyState := OPEN; onopen := true; onmessage := true;
                onclose := true; onerror := true |}).
    + reflexivity.
    + reflexivity.
Defined.

(** A socket that ends, with or without error, in a world whose sockets
    are wired and where no render is pending. *)
Lemma socket_end_step C dec w id s :
  is_App C -> sockets_inv w ->
  sockets w !! id = Some s -> readyState s <> CLOSED ->
  step C dec w (WsFailed id)
    = emit (ConsoleLog "WebSocket is closed.")
        (set_state CLOSED id (emit (ConsoleError "WebSocket error:") w)) /\
  step C dec w (WsClosed id)
    = emit (ConsoleLog "WebSocket is closed.") (set_state CLOSED id w).
Proof.
  intros HC [Hwired _ _ Hidle] Hs Hr.
  destruct (wired_lookup _ _ _ Hwired Hs) as (_ & _ & Hclose & Herror).
  cbn [step]. rewrite Hs. unfold fire. rewrite Hclose, Herror.
  assert (He : flush C (exec (comp_onerror C) w)
               = emit (ConsoleError "WebSocket error:") w).
  { destruct HC as [-> | ->]; (rewrite flush_idle by exact Hidle); reflexivity. }
  assert (Hc : forall w0, needs_render w0 = false ->
                          flush C (exec (comp_onclose C) w0)
                          = emit (ConsoleLog "WebSocket is closed.") w0).
  { intros w0 Hw0.
    destruct HC as [-> | ->]; (rewrite flush_idle by exact Hw0); reflexivity. }
  rewrite He, !Hc by exact Hidle.
  destruct (readyState s); try contradiction; split; reflexivity.
Qed.

(** X10: no retry and no reconnection.  In either version, when a
    connection that is not yet closed fails, its [onerror] and [onclose]
    handlers being installed and no render pending, the component only
    logs: [console.error('WebSocket error:', ...)] from [onerror], then
    [console.log('WebSocket is closed.')] from [onclose]; nothing else in
    the world changes but the socket's state; and when a connection ends
    without error only the second line is logged. *)
Theorem failed_socket_only_logs C dec w id s :
  is_App C ->
  sockets w !! id = Some s -> readyState s <> CLOSED ->
  onclose s = true -> onerror s = true ->
  needs_render w = false ->
  step C dec w (WsFailed id)
    = emit (ConsoleLog "WebSocket is closed.")
        (set_state CLOSED id (emit (ConsoleError "WebSocket error:") w)) /\
  step C dec w (WsClosed id)
    = emit (ConsoleLog "WebSocket is closed.") (set_state CLOSED id w).
Proof.
  intros HC Hs Hr Hclose Herror Hidle.
  cbn [step]. rewrite Hs. unfold fire. rewrite Hclose, Herror.
  assert (He : flush C (exec (comp_onerror C) w)
               = emit (ConsoleError "WebSocket error:") w).
  { destruct HC as [-> | ->]; (rewrite flush_idle by exact Hidle); reflexivity. }
  assert (Hc : forall w0, needs_render w0 = false ->
                          flush C (exec (comp_onclose C) w0)
                          = emit (ConsoleLog "WebSocket is closed.") w0).
  { intros w0 Hw0.
    destruct HC as [-> | ->]; (rewrite flush_idle by exact Hw0); reflexivity. }
  rewrite He, !Hc by exact Hidle.
  destruct (readyState s); try contradiction; split; reflexivity.
Qed.

Lemma failed_socket_only_logs_witness :
  let w := run ClientApp.App example_decode initial_world
             [Mount example_canvas; WsOpened 0] in
  let s := {| readyState := OPEN; onopen := true; onmessage := true;
              onclose := true; onerror := true |} in
  (is_App ClientApp.App /\ sockets w !! 0%nat = Some s /\ readyState s <> CLOSED /\
   onclose s = true /\ onerror s = true /\ needs_render w = false) /\
  step ClientApp.App example_decode w (WsFailed 0)
    = emit (ConsoleLog "WebSocket is closed.")
        (set_state CLOSED 0 (emit (ConsoleError "WebSocket error:") w)) /\
  step ClientApp.App example_decode w (WsClosed 0)
    = emit (ConsoleLog "WebSocket is closed.") (set_state CLOSED 0 w).
Proof.
  split.
  - repeat split; try reflexivity; try (left; reflexivity). discriminate.
  - apply (failed_socket_only_logs ClientApp.App example_decode
             (run ClientApp.App example_decode initial_world
                [Mount example_canvas; WsOpened 0]) 0%nat
             {| readyState := OPEN; onopen := true; onmessage := true;
                onclose := true; onerror := true |}).
    + left; reflexivity.
    + reflexivity.
    + discriminate.
    + reflexivity.
    + reflexivity.
    + reflexivity.
Defined.

Lemma unmount_closes_iff_open_witness :
  let w := run FaceCountApp.App example_decode initial_world
             [Mount example_canvas; WsOpened 0] in
  let s := {| readyState := OPEN; onopen := true; onmessage := true;
              onclose := true; onerror := true |} in
  (is_App FaceCountApp.App /\ phase w = Mounted /\ effect_ws w = Some 0%nat /\
   sockets w !! 0%nat = Some s) /\
  closed_sockets (log (step FaceCountApp.App example_decode w Unmount))
    = 0%nat :: closed_sockets (log w).
Proof.
  split.
  - repeat split; try reflexivity. right; reflexivity.
  - apply (unmount_closes_iff_open FaceCountApp.App example_decode
             (run FaceCountApp.App example_decode initial_world
                [Mount example_canvas; WsOpened 0]) 0%nat
             {| readyState := OPEN; onopen := true; onmessage := true;
                onclose := true; onerror := true |}).
    + right; reflexivity.
    + reflexivity.
    + reflexivity.
    + reflexivity.
Defined.

(** A socket that opens, in a world whose sockets are wired and where no
    render is pending. *)
Lemma socket_open_step C dec w id s :
  is_App C -> sockets_inv w ->
  sockets w !! id = Some s -> readyState s = CONNECTING ->
  step C dec w (WsOpened id)
    = emit (ConsoleLog "WebSocket is connected.") (set_state OPEN id w).
Proof.
  intros HC [Hwired _ _ Hidle] Hs Hr.
  destruct (wired_lookup _ _ _ Hwired Hs) as (Hopen & _).
  cbn [step]. rewrite Hs, Hr. unfold fire. rewrite Hopen.
  destruct HC as [-> | ->]; (rewrite flush_idle by exact Hidle); reflexivity.
Qed.

(** X13: on open nothing is sent.  In either version, when a connecting
    socket opens, its [onopen] handler being installed and no render
    pending, the component only logs
    [console.log('WebSocket is connected.')]; nothing else in the world
    changes but the socket's state. *)
Theorem opened_socket_only_logs C dec w id s :
  is_App C ->
  sockets w !! id = Some s -> readyState s = CONNECTING ->
  onopen s = true -> needs_render w = false ->
  step C dec w (WsOpened id)
    = emit (ConsoleLog "WebSocket is connected.") (set_state OPEN id w).
Proof.
  intros HC Hs Hr Hopen Hidle.
  cbn [step]. rewrite Hs, Hr. unfold fire. rewrite Hopen.
  destruct HC as [-> | ->]; (rewrite flush_idle by exact Hidle); reflexivity.
Qed.

Lemma opened_socket_only_logs_witness :
  let w := run ClientApp.App example_decode initial_world [Mount example_canvas] in
  let s := {| readyState := CONNECTING; onopen := true; onmessage := true;
              onclose := true; onerror := true |} in
  (is_App ClientApp.App /\ sockets w !! 0%nat = Some s /\
   readyState s = CONNECTING /\ onopen s = true /\ needs_render w = false) /\
  step ClientApp.App example_decode w (WsOpened 0)
    = emit (ConsoleLog "WebSocket is connected.") (set_state OPEN 0 w).
Proof.
  split.
  - repeat split; try reflexivity. left; reflexivity.
  - apply (opened_socket_only_logs ClientApp.App example_decode
             (run ClientApp.App example_decode initial_world [Mount example_canvas])
             0%nat
             {| readyState := CONNECTING; onopen := true; onmessage := true;
                onclose := true; onerror := true |}).
    + left; reflexivity.
    + reflexivity.
    + reflexivity.
    + reflexivity.
    + reflexivity.
Defined.

(** ** After the unmount *)

Lemma same_ref_refl w : same_ref w w.
Proof. split; reflexivity. Qed.

Lemma same_ref_trans w1 w2 w3 : same_ref w1 w2 -> same_ref w2 w3 -> same_ref w1 w3.
Proof. intros [] []. split; congruence. Qed.

Lemma network_same_ref w w' : only_network w w' -> same_ref w w'.
Proof. intros []. split; assumption. Qed.

Lemma ref_flush C w : is_App C -> same_ref w (flush C w).
Proof.
  intros HC. unfold flush. destruct (needs_render w); [| apply same_ref_refl].
  destruct HC as [-> | ->].
  - destruct (rerender_client (with_faceCount (faceCount w) false w))
      as [_ _ _ Hv _ Hp _ _ _].
    split; assumption.
  - destruct (rerender_face (with_faceCount (faceCount w) false w))
      as [_ _ _ Hv _ Hp _ _ _].
    split; assumption.
Qed.

Lemma ref_fire C b h w :
  is_App C -> (forall w0, same_ref w0 (exec h w0)) -> same_ref w (fire C b h w).
Proof.
  intros HC Hh. unfold fire. destruct b; [| apply same_ref_refl].
  eapply same_ref_trans; [apply Hh | apply ref_flush, HC].
Qed.

Lemma ref_setFaceCount v w : same_ref w (exec (setFaceCount v) w).
Proof.
  unfold exec, setFaceCount, modify.
  destruct (decide (phase w = Mounted)) as [Hp | Hp].
  - rewrite Hp. destruct (Object_is (faceCount w) v); split; reflexivity.
  - destruct (phase w); try contradiction; split; reflexivity.
Qed.

Lemma ref_handlers C :
  is_App C ->
  (forall w, same_ref w (exec (comp_onopen C) w)) /\
  (forall w, same_ref w (exec (comp_onclose C) w)) /\
  (forall w, same_ref w (exec (comp_onerror C) w)) /\
  (forall data w, same_ref w (exec (comp_onmessage C data) w)).
Proof.
  intros [-> | ->]; (split; [| split; [| split]]);
    try solve [intros w; split; reflexivity
              | intros data w; split; reflexivity].
  intros [text|bytes] w; [apply ref_setFaceCount | split; reflexivity].
Qed.

(** Only a mount or an unmount changes the phase, and once the canvas
    reference is null only a mount can set it again. *)
Lemma ref_step C dec w ev :
  is_App C ->
  match ev with
  | Mount _ | Unmount => True
  | _ => phase (step C dec w ev) = phase w /\
         (videoRef w = None -> videoRef (step C dec w ev) = None)
  end.
Proof.
  intros HC.
  destruct (ref_handlers C HC) as (Hopen & Hclose & Herror & Hmessage).
  assert (Hweak : forall w', same_ref w w' ->
            phase w' = phase w /\ (videoRef w = None -> videoRef w' = None))
    by (intros w' [H1 H2]; split; congruence).
  destruct ev as [canvas| |id|id data|id|id|img]; cbn [step]; try exact I.
  - apply Hweak.
    destruct (sockets w !! id) as [s|]; [| apply same_ref_refl].
    destruct (readyState s); try apply same_ref_refl.
    eapply same_ref_trans; [| apply ref_fire; [exact HC | exact Hopen]].
    split; reflexivity.
  - apply Hweak.
    destruct (sockets w !! id) as [s|]; [| apply same_ref_refl].
    destruct (readyState s); try apply same_ref_refl.
    apply ref_fire; [exact HC | apply Hmessage].
  - apply Hweak.
    destruct (sockets w !! id) as [s|]; [| apply same_ref_refl].
    assert (same_ref w
              (fire C (onclose s) (comp_onclose C)
                 (set_state CLOSED id (fire C (onerror s) (comp_onerror C) w)))).
    { eapply same_ref_trans; [apply ref_fire; [exact HC | exact Herror] |].
      eapply same_ref_trans; [| apply ref_fire; [exact HC | exact Hclose]].
      split; reflexivity. }
    destruct (readyState s); try assumption. apply same_ref_refl.
  - apply Hweak.
    destruct (sockets w !! id) as [s|]; [| apply same_ref_refl].
    assert (same_ref w
              (fire C (onclose s) (comp_onclose C) (set_state CLOSED id w))).
    { eapply same_ref_trans; [| apply ref_fire; [exact HC | exact Hclose]].
      split; reflexivity. }
    destruct (readyState s); try assumption. apply same_ref_refl.
  - destruct (images w !! img) as [i|]; [| auto].
    destruct (settled i); [auto |].
    destruct (src i); [| auto].
    destruct (fetching i ≫= dec) as [bmp|]; [| auto].
    destruct (onload i) as [url|]; [| auto].
    rewrite (exec_onload C url img _ HC). cbn [videoRef with_images].
    set (w1 := with_images (alter (settle (Some bmp)) img (images w)) w).
    destruct (ref_flush C
                match videoRef w with
                | Some c => if context2d c then painted url img c w1 else w1
                | None => w1
                end HC) as [-> ->].
    split.
    + destruct (videoRef w) as [c|]; [destruct (context2d c) |]; try reflexivity.
      apply (net_painted url img c w1).
    + intros Hv. rewrite Hv. exact Hv.
Qed.

Lemma drawn_extends l l' :
  extends_quietly l l' -> drawn_images l' = drawn_images l.
Proof.
  intros (es & -> & H). induction es as [|e es IH]; cbn; [reflexivity |].
  cbn in H. apply andb_prop in H as [He Hes]. rewrite <- (IH Hes).
  destruct e; try discriminate; reflexivity.
Qed.

(** With no canvas, an event paints nothing and releases nothing. *)
Lemma no_canvas_no_paint C dec w ev :
  is_App C -> videoRef w = None ->
  drawn_images (log (step C dec w ev)) = drawn_images (log w) /\
  released_urls (log (step C dec w ev)) = released_urls (log w).
Proof.
  intros HC Hv.
  destruct (step_media C dec w ev HC)
    as [Hs | data Hs | i img bmp Hi Hset Hs | i img u bmp c Hi Hset Ho Hv' Hc Hs].
  - destruct Hs as [_ _ _ Hl].
    rewrite (drawn_extends _ _ Hl), (released_extends _ _ Hl). auto.
  - destruct Hs as [_ _ _ Hl].
    rewrite (drawn_extends _ _ Hl), (released_extends _ _ Hl). auto.
  - destruct Hs as [_ _ _ Hl].
    rewrite (drawn_extends _ _ Hl), (released_extends _ _ Hl). auto.
  - congruence.
Qed.

Lemma unmounted_step C dec w ev :
  is_App C -> phase w = Unmounted -> videoRef w = None ->
  phase (step C dec w ev) = Unmounted /\ videoRef (step C dec w ev) = None.
Proof.
  intros HC Hp Hv. pose proof (ref_step C dec w ev HC) as H.
  destruct ev as [canvas| |id|id data|id|id|img].
  1,2: cbn [step]; rewrite Hp; auto.
  all: destruct H as [H1 H2]; rewrite H1, (H2 Hv); auto.
Qed.

Lemma mount_phase C canvas w :
  is_App C -> phase (render_and_commit C (Some canvas) (with_phase Mounted w)) = Mounted.
Proof.
  intros [-> | ->].
  - destruct (mount_client canvas (with_phase Mounted w))
      as [_ _ _ _ _ Hph _ _ _]. exact Hph.
  - destruct (mount_face canvas (with_phase Mounted w))
      as [_ _ _ _ _ Hph _ _ _]. exact Hph.
Qed.

Lemma detached_step C dec w ev : is_App C -> detached w -> detached (step C dec w ev).
Proof.
  intros HC Hd. unfold detached in *. pose proof (ref_step C dec w ev HC) as H.
  destruct ev as [canvas| |id|id data|id|id|img].
  3-7: destruct H as [H1 H2]; rewrite H1; intros Hm; apply H2, Hd, Hm.
  - cbn [step]. destruct (decide (phase w = Fresh)) as [Hp | Hp].
    + rewrite Hp, (mount_phase C canvas w HC). intros Hn. contradiction.
    + assert (Hid : match phase w with
                    | Fresh => render_and_commit C (Some canvas) (with_phase Mounted w)
                    | _ => w
                    end = w)
        by (destruct (phase w); [contradiction | reflexivity | reflexivity]).
      rewrite Hid. exact Hd.
  - cbn [step]. destruct (decide (phase w = Mounted)) as [Hp | Hp].
    + rewrite Hp. intros _. reflexivity.
    + assert (Hid : match phase w with
                    | Mounted => unmount C w
                    | _ => w
                    end = w)
        by (destruct (phase w); [reflexivity | contradiction | reflexivity]).
      rewrite Hid. exact Hd.
Qed.

Lemma detached_run C dec evs :
  is_App C -> detached (run C dec initial_world evs).
Proof.
  intros HC.
  assert (H : forall w, detached w -> detached (run C dec w evs)).
  { induction evs as [|ev evs IH]; intros w Hw; [exact Hw |].
    cbn. apply IH, detached_step; assumption. }
  apply H. intros _. reflexivity.
Qed.

(** X6: once the component is unmounted, in every run of either version,
    it stays unmounted, [videoRef.current] stays null and, whatever
    arrives afterwards (frames on a socket that was still connecting,
    decodes that end late), nothing is painted and no object URL is
    released any more. *)
Theorem nothing_painted_after_unmount C dec evs evs' :
  is_App C ->
  phase (run C dec initial_world evs) = Unmounted ->
  let w := run C dec initial_world evs in
  let w' := run C dec w evs' in
  phase w' = Unmounted /\ videoRef w' = None /\
  drawn_images (log w') = drawn_images (log w) /\
  released_urls (log w') = released_urls (log w).
Proof.
  intros HC Hp. cbv zeta.
  assert (Hv : videoRef (run C dec initial_world evs) = None).
  { apply (detached_run C dec evs HC). rewrite Hp. discriminate. }
  set (w := run C dec initial_world evs) in *. clearbody w.
  revert w Hp Hv. induction evs' as [|ev evs' IH]; intros w Hp Hv; [auto |].
  cbn [run fold_left].
  destruct (unmounted_step C dec w ev HC Hp Hv) as [Hp' Hv'].
  destruct (no_canvas_no_paint C dec w ev HC Hv) as [Hd Hr].
  destruct (IH _ Hp' Hv') as (H1 & H2 & H3 & H4).
  unfold run in *. rewrite H3, H4, Hd, Hr. auto.
Qed.

Lemma nothing_painted_after_unmount_witness :
  let evs := [Mount example_canvas; WsMessage 0 example_frame; Unmount] in
  let w := run FaceCountApp.App example_decode initial_world evs in
  let w' := run FaceCountApp.App example_decode w
              [WsOpened 0; WsMessage 0 example_frame; ImgSettled 0] in
  (is_App FaceCountApp.App /\ phase w = Unmounted) /\
  (images w' !! 0%nat) ≫= bitmap
    = Some {| natural_width := 3; natural_height := 1; pixels := [255; 216; 255]%N |} /\
  phase w' = Unmounted /\ videoRef w' = None /\
  drawn_images (log w') = drawn_images (log w) /\
  released_urls (log w') = released_urls (log w).
Proof.
  split; [split; [right; reflexivity | reflexivity] |].
  split; [reflexivity |].
  apply (nothing_painted_after_unmount FaceCountApp.App example_decode
           [Mount example_canvas; WsMessage 0 example_frame; Unmount]
           [WsOpened 0; WsMessage 0 example_frame; ImgSettled 0]).
  - right; reflexivity.
  - reflexivity.
Defined.

(** ** What a text message stores as the count *)

Lemma trim_start_spaces ws t :
  forallb is_white_space ws = true -> trim_start (ws ++ t) = trim_start t.
Proof.
  induction ws as [|c ws IH]; cbn; [reflexivity |].
  intros [-> H]%andb_prop. apply IH, H.
Qed.

Lemma digit_prefix_stop ds rest :
  forallb is_digit10 ds = true -> stops_number rest = true ->
  digit_prefix (ds ++ rest) = ds.
Proof.
  intros Hd Hrest. induction ds as [|c ds IH]; cbn [app digit_prefix].
  - destruct rest as [|d rest]; [reflexivity |].
    cbn [stops_number] in Hrest. apply negb_true_iff in Hrest.
    cbn [digit_prefix]. rewrite Hrest. reflexivity.
  - cbn [forallb] in Hd. apply andb_prop in Hd as [Hc Hd].
    rewrite Hc, (IH Hd). reflexivity.
Qed.

Lemma digit_not_sign c :
  is_digit10 c = true -> (c =? 45)%N = false /\ (c =? 43)%N = false.
Proof.
  unfold is_digit10. intros [H1%N.leb_le H2%N.leb_le]%andb_prop.
  split; apply N.eqb_neq; lia.
Qed.

(** [parseInt] skips leading white space, takes an optional sign, reads
    the digits and ignores whatever follows them. *)
Lemma parseInt_prefix ws sign ds rest :
  forallb is_white_space ws = true ->
  all_digits ds = true -> stops_number rest = true ->
  parseInt10 (ws ++ sign_text sign ++ ds ++ rest)
  = to_number (is_minus sign) (decimal_value ds).
Proof.
  intros Hws Hds Hrest. unfold parseInt10. rewrite (trim_start_spaces _ _ Hws).
  pose proof Hds as [Hne Hd]%andb_prop.
  assert (Hread : forall neg,
            match digit_prefix (ds ++ rest) with
            | [] => NaN
            | _ :: _ => to_number neg (math_int (digit_prefix (ds ++ rest)))
            end = to_number neg (decimal_value ds)).
  { intros neg. rewrite (digit_prefix_stop ds rest Hd Hrest), math_int_decimal.
    destruct ds; [discriminate | reflexivity]. }
  destruct sign as [[|]|]; cbn [sign_text app is_minus].
  - cbn. apply Hread.
  - cbn. apply Hread.
  - destruct ds as [|d ds']; [discriminate |].
    cbn [forallb] in Hd. apply andb_prop in Hd as [Hdigit _].
    destruct (digit_not_sign d Hdigit) as [Hminus Hplus].
    cbn [app trim_start]. rewrite (digit_not_space d Hdigit), Hminus, Hplus.
    apply (Hread false).
Qed.

(** X11: in the face-count version, a text delivered to the mounted
    component through an installed message handler is stored as the
    integer it starts with: leading white space is skipped, an optional
    sign is taken, the decimal digits are read (and converted to the
    nearest JavaScript number) and whatever follows them (a unit, a
    fraction, a line break) is ignored.  A render made while the count
    still holds that value displays it. *)
Theorem leading_integer_is_the_count dec w id s ws sign ds rest :
  phase w = Mounted ->
  sockets w !! id = Some s -> readyState s = OPEN -> onmessage s = true ->
  forallb is_white_space ws = true ->
  all_digits ds = true -> stops_number rest = true ->
  let w' := step FaceCountApp.App dec w
              (WsMessage id (PText (ws ++ sign_text sign ++ ds ++ rest))) in
  faceCount w' = to_number (is_minus sign) (decimal_value ds) /\
  (forall w0, faceCount w0 = faceCount w' ->
     displayed_count (render_and_commit FaceCountApp.App None w0)
     = Some (to_number (is_minus sign) (decimal_value ds))).
Proof.
  intros Hp Hs Hr Ho Hws Hds Hrest. cbv zeta.
  rewrite (text_step_cell dec w id s _ Hp Hs Hr Ho).
  rewrite (parseInt_prefix ws sign ds rest Hws Hds Hrest).
  split; [reflexivity |].
  intros w0 Hw0. rewrite render_shows_cell, Hw0. reflexivity.
Qed.

Lemma leading_integer_is_the_count_witness :
  let w := run FaceCountApp.App example_decode initial_world
             [Mount example_canvas; WsOpened 0] in
  let s := {| readyState := OPEN; onopen := true; onmessage := true;
              onclose := true; onerror := true |} in
  let w' := step FaceCountApp.App example_decode w
              (WsMessage 0 (PText (js " " ++ sign_text (Some true) ++ js "12"
                                     ++ js ".5 faces"))) in
  (phase w = Mounted /\ sockets w !! 0%nat = Some s /\ readyState s = OPEN /\
   onmessage s = true /\
   forallb is_white_space (js " ") = true /\
   all_digits (js "12") = true /\
   stops_number (js ".5 faces") = true) /\
  faceCount w' = to_number (is_minus (Some true)) (decimal_value (js "12")) /\
  (forall w0, faceCount w0 = faceCount w' ->
     displayed_count (render_and_commit FaceCountApp.App None w0)
     = Some (to_number (is_minus (Some true)) (decimal_value (js "12")))).
Proof.
  split.
  - repeat split; reflexivity.
  - apply (leading_integer_is_the_count example_decode
             (run FaceCountApp.App example_decode initial_world
                [Mount example_canvas; WsOpened 0]) 0%nat
             {| readyState := OPEN; onopen := true; onmessage := true;
                onclose := true; onerror := true |}
             (js " ") (Some true) (js "12") (js ".5 faces")).
    + reflexivity.
    + reflexivity.
    + reflexivity.
    + reflexivity.
    + reflexivity.
    + reflexivity.
    + reflexivity.
Defined.

(** ** Frames and closes, event by event *)

(** X14: each message that reaches the image path allocates exactly one
    object URL and one image.  In either version, a binary message
    delivered on an open socket whose [onmessage] handler is installed
    (in the frames-only version: any message), no render being pending,
    appends one image loading from a fresh object URL that names an
    [image/jpeg] blob of the payload, logs the [createObjectURL] call and
    changes nothing else. *)
Theorem delivered_frame_allocates C dec w id s data :
  is_App C ->
  sockets w !! id = Some s -> readyState s = OPEN -> onmessage s = true ->
  needs_render w = false ->
  (C = FaceCountApp.App -> exists bytes, data = PBinary bytes) ->
  step C dec w (WsMessage id data) = frame_received data w.
Proof.
  intros HC Hs Hr Hmsg Hidle Hdata.
  cbn [step]. rewrite Hs, Hr. unfold fire. rewrite Hmsg.
  assert (He : exec (comp_onmessage C data) w = frame_received data w).
  { destruct HC as [-> | ->].
    - apply exec_onmessage_client.
    - destruct (Hdata eq_refl) as [bytes ->].
      unfold exec. cbn [comp_onmessage FaceCountApp.App].
      rewrite face_binary_branch. reflexivity. }
  rewrite He. apply flush_idle. exact Hidle.
Qed.

Lemma delivered_frame_allocates_witness :
  let w := run FaceCountApp.App example_decode initial_world
             [Mount example_canvas; WsOpened 0] in
  let s := {| readyState := OPEN; onopen := true; onmessage := true;
              onclose := true; onerror := true |} in
  (is_App FaceCountApp.App /\ sockets w !! 0%nat = Some s /\ readyState s = OPEN /\
   onmessage s = true /\ needs_render w = false /\
   (FaceCountApp.App = FaceCountApp.App ->
    exists bytes, example_frame = PBinary bytes)) /\
  step FaceCountApp.App example_decode w (WsMessage 0 example_frame)
    = frame_received example_frame w.
Proof.
  split.
  - repeat split; try reflexivity; [right; reflexivity |].
    intros _. eexists. reflexivity.
  - apply (delivered_frame_allocates FaceCountApp.App example_decode
             (run FaceCountApp.App example_decode initial_world
                [Mount example_canvas; WsOpened 0]) 0%nat
             {| readyState := OPEN; onopen := true; onmessage := true;
                onclose := true; onerror := true |} example_frame).
    + right; reflexivity.
    + reflexivity.
    + reflexivity.
    + reflexivity.
    + reflexivity.
    + intros _. eexists. reflexivity.
Defined.

Lemma closed_render_calls w :
  closed_sockets (render_calls w ++ log w) = closed_sockets (log w) \/
  exists old s,
    effect_ws w = Some old /\ sockets w !! old = Some s /\ readyState s = OPEN /\
    closed_sockets (render_calls w ++ log w) = old :: closed_sockets (log w).
Proof.
  unfold render_calls. destruct (effect_ws w) as [old|]; [| left; reflexivity].
  destruct (sockets w !! old) as [s|] eqn:Hs; [| left; reflexivity].
  cbn [fmap option_fmap option_map].
  destruct (readyState s) eqn:Hr; try (left; reflexivity).
  right. exists old, s. auto.
Qed.

Lemma closed_settle C dec w img :
  is_App C -> needs_render w = false ->
  closed_sockets (log (step C dec w (ImgSettled img))) = closed_sockets (log w).
Proof.
  intros HC Hn. cbn [step].
  destruct (images w !! img) as [i|]; [| reflexivity].
  destruct (settled i); [reflexivity |].
  destruct (src i); [| reflexivity].
  destruct (fetching i ≫= dec) as [bmp|]; [| reflexivity].
  destruct (onload i) as [url|]; [| reflexivity].
  rewrite (exec_onload C url img _ HC). cbn [videoRef with_images].
  set (w1 := with_images (alter (settle (Some bmp)) img (images w)) w).
  destruct (videoRef w) as [c|]; [destruct (context2d c) |].
  - rewrite flush_idle by (destruct (net_painted url img c w1) as [_ _ _ ->]; exact Hn).
    rewrite painted_log. reflexivity.
  - rewrite flush_idle by exact Hn. reflexivity.
  - rewrite flush_idle by exact Hn. reflexivity.
Qed.

(** X5: the component calls [close] only from the effect's cleanup and
    only on an open socket.  For every event of every run of either
    version: either no [close] is issued, or exactly one is, on the socket
    the effect holds, whose [readyState] was OPEN just before. *)
Theorem close_only_when_open C dec evs ev :
  is_App C ->
  let w := run C dec initial_world evs in
  let w' := step C dec w ev in
  closed_sockets (log w') = closed_sockets (log w) \/
  exists old s,
    effect_ws w = Some old /\ sockets w !! old = Some s /\ readyState s = OPEN /\
    closed_sockets (log w') = old :: closed_sockets (log w).
Proof.
  intros HC. cbv zeta.
  pose proof (sockets_inv_run C dec evs HC) as Hinv.
  set (w := run C dec initial_world evs) in *. clearbody w.
  pose proof (fun id s => socket_open_step C dec w id s HC Hinv) as Hopened.
  pose proof (fun id s => socket_end_step C dec w id s HC Hinv) as Hfailed.
  destruct Hinv as [Hwired Heff Hmounted Hidle].
  destruct ev as [canvas| |id|id data|id|id|img].
  - (* Mount *)
    cbn [step]. destruct (phase w); try (left; reflexivity).
    destruct (render_wires C (Some canvas) (with_phase Mounted w) HC Hwired Heff)
      as (_ & _ & _ & _ & ->).
    apply (closed_render_calls (with_phase Mounted w)).
  - (* Unmount *)
    cbn [step]. destruct (phase w); try (left; reflexivity).
    unfold unmount. destruct (effect_ws w) as [old|] eqn:Hold; [| left; reflexivity].
    destruct (lookup_lt_is_Some_2 (sockets w) old (Heff old eq_refl)) as [s Hs].
    replace (comp_cleanup C old) with (ClientApp.cleanup old)
      by (destruct HC as [-> | ->]; reflexivity).
    rewrite (exec_cleanup old w s Hs).
    destruct (readyState s) eqn:Hr; try (left; reflexivity).
    right. exists old, s. auto.
  - (* WsOpened *)
    left. destruct (sockets w !! id) as [s|] eqn:Hs; [| cbn [step]; rewrite Hs; reflexivity].
    destruct (decide (readyState s = CONNECTING)) as [Hr | Hr].
    + rewrite (Hopened id s Hs Hr). reflexivity.
    + cbn [step]. rewrite Hs. destruct (readyState s); try reflexivity. contradiction.
  - (* WsMessage *)
    cbn [step]. destruct (sockets w !! id) as [s|] eqn:Hs; [| left; reflexivity].
    destruct (readyState s); try (left; reflexivity).
    unfold fire. destruct (onmessage s); [| left; reflexivity].
    assert (Hframe : closed_sockets (log (flush C (frame_received data w)))
                     = closed_sockets (log w))
      by (rewrite flush_idle by exact Hidle; reflexivity).
    destruct HC as [-> | ->]; cbn [comp_onmessage ClientApp.App FaceCountApp.App].
    + left. rewrite exec_onmessage_client. exact Hframe.
    + destruct data as [text|bytes].
      * unfold FaceCountApp.ws_onmessage, exec, setFaceCount, modify.
        destruct (phase w); try (rewrite flush_idle by exact Hidle; left; reflexivity).
        destruct (Object_is (faceCount w) (parseInt10 text));
          [rewrite flush_idle by exact Hidle; left; reflexivity |].
        unfold flush. cbn [needs_render with_faceCount faceCount].
        destruct (render_wires FaceCountApp.App None
                    (with_faceCount (parseInt10 text) false
                       (with_faceCount (parseInt10 text) true w))
                    (or_intror eq_refl) Hwired Heff)
          as (_ & _ & _ & _ & ->).
        apply (closed_render_calls
                 (with_faceCount (parseInt10 text) false
                    (with_faceCount (parseInt10 text) true w))).
      * left. unfold exec. rewrite face_binary_branch. exact Hframe.
  - (* WsFailed *)
    left. destruct (sockets w !! id) as [s|] eqn:Hs; [| cbn [step]; rewrite Hs; reflexivity].
    destruct (decide (readyState s = CLOSED)) as [Hr | Hr].
    + cbn [step]. rewrite Hs, Hr. reflexivity.
    + destruct (Hfailed id s Hs Hr) as [-> _]. reflexivity.
  - (* WsClosed *)
    left. destruct (sockets w !! id) as [s|] eqn:Hs; [| cbn [step]; rewrite Hs; reflexivity].
    destruct (decide (readyState s = CLOSED)) as [Hr | Hr].
    + cbn [step]. rewrite Hs, Hr. reflexivity.
    + destruct (Hfailed id s Hs Hr) as [_ ->]. reflexivity.
  - (* ImgSettled *)
    left. apply closed_settle; assumption.
Qed.

Lemma close_only_when_open_witness :
  let w := run FaceCountApp.App example_decode initial_world
             [Mount example_canvas; WsOpened 0] in
  let w' := step FaceCountApp.App example_decode w (WsMessage 0 (PText (js "4"))) in
  is_App FaceCountApp.App /\
  (closed_sockets (log w') = closed_sockets (log w) \/
   exists old s,
     effect_ws w = Some old /\ sockets w !! old = Some s /\ readyState s = OPEN /\
     closed_sockets (log w') = old :: closed_sockets (log w)).
Proof.
  split; [right; reflexivity |].
  apply (close_only_when_open FaceCountApp.App example_decode
           [Mount example_canvas; WsOpened 0] (WsMessage 0 (PText (js "4")))).
  right; reflexivity.
Defined.
